(** * picTaging: tag selection model and tag-indexed batch export

    A shallow embedding of the core of the picTaging application:
    - [app/index.tsx], the home screen: image collection, unique file
      names, batch export to the photo library;
    - the tag modal it imports as [@/components/TagModal]: time tag,
      toggle, save, and, in the variant that also manages the catalog,
      deleteGroup and deleteTag.

    Conventions of the embedding
    - JS strings are [string]; a character is one code unit below 256.
    - React state is passed explicitly: a handler maps the state it closed
      over to the state after its [set...] calls.
    - The device (file system cache, photo library, album) is an explicit
      record; the outcome of every awaited call is fixed by an environment
      [Env], so that any interleaving of rejections can be scripted.
    - [Date.now()] is a reading supplied by the caller / the environment. *)

From Stdlib Require Import ZArith Lia Ascii.
From stdpp Require Import gmap strings list pretty sorting.

(** ** Data model (interfaces [Tag], [TagGroup], [ImageItem]) *)

Record Tag := mkTag {
  tag_id : string;
  tag_name : string;
  tag_groupId : option string;   (* groupId?: string *)
  tag_isTimeTag : option bool;   (* isTimeTag?: boolean *)
}.

Record TagGroup := mkTagGroup {
  group_id : string;
  group_name : string;
  group_tags : list Tag;
}.

Record ImageItem := mkImageItem {
  image_id : string;
  image_uri : string;
  image_tags : list Tag;
}.

Global Instance Tag_eq_dec : EqDecision Tag.
Proof. solve_decision. Defined.
Global Instance TagGroup_eq_dec : EqDecision TagGroup.
Proof. solve_decision. Defined.
Global Instance ImageItem_eq_dec : EqDecision ImageItem.
Proof. solve_decision. Defined.

(** JS truthiness of the optional flag: [undefined] and [false] are falsy. *)
Definition isTimeTag (t : Tag) : bool := default false (tag_isTimeTag t).

(** ** Unique file names ([generateUniqueFileName], app/index.tsx) *)

Module Naming.

(** [`${baseFileName}_${counter}`] *)
Definition suffixed (baseFileName : string) (counter : nat) : string :=
  baseFileName +:+ "_" +:+ pretty counter.

(** [tags.map((tag) => tag.name).join("_")] *)
Definition baseFileNameOf (tags : list Tag) : string :=
  String.concat "_" (tag_name <$> tags).

(** The [while (usedNames.has(fileName))] loop.  The loop has no bound in
    the source; [fuel] bounds the number of iterations of the model and
    [None] means that the bound was hit.  [uniqueLoop_enough_fuel] below
    shows that [S (size usedNames)] iterations always suffice. *)
Fixpoint uniqueLoop (fuel : nat) (usedNames : gset string)
    (baseFileName fileName : string) (counter : nat) : option string :=
  if decide (fileName ∈ usedNames) then
    match fuel with
    | O => None
    | S fuel' =>
        uniqueLoop fuel' usedNames baseFileName
          (suffixed baseFileName counter) (S counter)
    end
  else Some fileName.

(** [generateUniqueFileName(tags, usedNames)] returns the name and mutates
    the set; the model returns the name and the set after the call.
    [now] is the reading of [Date.now()].  The [default] is dead code: the
    loop always answers within the fuel given here. *)
Definition generateUniqueFileName (now : N) (tags : list Tag)
    (usedNames : gset string) : string * gset string :=
  match tags with
  | [] => ("image_" +:+ pretty now, usedNames)
  | _ :: _ =>
      let baseFileName := baseFileNameOf tags in
      let fileName :=
        default baseFileName
          (uniqueLoop (S (size usedNames)) usedNames
             baseFileName baseFileName 1) in
      (fileName, {[fileName]} ∪ usedNames)
  end.

(** The k-th name the loop tries: the base name, then [base_1], [base_2]... *)
Definition candidate (baseFileName : string) (k : nat) : string :=
  match k with
  | O => baseFileName
  | S _ => suffixed baseFileName k
  end.

End Naming.

(** ** Tag selection model (components/TagModal.tsx) *)

Module Selection.

(** Code units that [String.prototype.trim] strips (those below 256):
    TAB, LF, VT, FF, CR, SPACE and NBSP. *)
Definition isWhiteSpace (c : ascii) : bool :=
  bool_decide (nat_of_ascii c ∈ [9; 10; 11; 12; 13; 32; 160]).

Fixpoint trimStart (s : string) : string :=
  match s with
  | EmptyString => EmptyString
  | String c s' => if isWhiteSpace c then trimStart s' else s
  end.

Fixpoint trimEnd (s : string) : string :=
  match s with
  | EmptyString => EmptyString
  | String c s' =>
      match trimEnd s' with
      | EmptyString =>
          if isWhiteSpace c then EmptyString else String c EmptyString
      | r => String c r
      end
  end.

(** [s.trim()] *)
Definition trim (s : string) : string := trimEnd (trimStart s).

Fixpoint whitespaceOnly (s : string) : bool :=
  match s with
  | EmptyString => true
  | String c s' => isWhiteSpace c && whitespaceOnly s'
  end.

(** [Array.prototype.findIndex]: the first index whose element satisfies
    the predicate, [-1] when there is none. *)
Fixpoint findIndexFrom {A} (p : A → bool) (l : list A) (i : Z) : Z :=
  match l with
  | [] => (-1)%Z
  | x :: l' => if p x then i else findIndexFrom p l' (i + 1)%Z
  end.

Definition findIndex {A} (p : A → bool) (l : list A) : Z :=
  findIndexFrom p l 0.

(** The state of the modal that the handlers below read and set. *)
Record State := mkState {
  selectedTags : list Tag;
  timeTag : string;          (* text of the time-tag input *)
}.

(** Number of tags flagged as time tag; the exclusivity invariant bounds
    it by one. *)
Definition timeTagCount (tags : list Tag) : nat :=
  length (filter (λ t, isTimeTag t = true) tags).

Definition exclusive (tags : list Tag) : Prop := timeTagCount tags ≤ 1.

(** [addTimeTag]; [now] is the reading of [Date.now()]. *)
Definition addTimeTag (now : N) (st : State) : State :=
  if decide (trim (timeTag st) = "") then st
  else
    let timeTagObject :=
      mkTag ("time-" +:+ pretty now) (timeTag st) None (Some true) in
    let existingTimeTagIndex := findIndex isTimeTag (selectedTags st) in
    let newSelectedTags :=
      if (0 <=? existingTimeTagIndex)%Z
      then <[Z.to_nat existingTimeTagIndex := timeTagObject]> (selectedTags st)
      else selectedTags st ++ [timeTagObject] in
    mkState newSelectedTags "".

(** The remove button of the time-tag badge. *)
Definition removeTimeTag (st : State) : State :=
  mkState (filter (λ t, isTimeTag t ≠ true) (selectedTags st)) (timeTag st).

(** [selectedTags.some((t) => t.id === id)] *)
Definition hasId (id : string) (tags : list Tag) : bool :=
  existsb (λ t, bool_decide (tag_id t = id)) tags.

(** [{ ...tag, groupId }] *)
Definition stamp (groupId : string) (tag : Tag) : Tag :=
  mkTag (tag_id tag) (tag_name tag) (Some groupId) (tag_isTimeTag tag).

(** [toggleTag(groupId, tag)] on the selected tags. *)
Definition toggleTag (groupId : string) (tag : Tag)
    (selectedTags : list Tag) : list Tag :=
  let isSelected := hasId (tag_id tag) selectedTags in
  if isSelected
  then filter (λ t, tag_id t ≠ tag_id tag) selectedTags
  else selectedTags ++ [stamp groupId tag].

(** A run of [toggleTag] calls, each on the state left by the one before. *)
Definition toggleAll (calls : list (string * Tag))
    (selectedTags : list Tag) : list Tag :=
  foldl (λ sel c, toggleTag c.1 c.2 sel) selectedTags calls.

(** The comparator that [handleSave] passes to [sort].  [localeCompare] is
    [String.prototype.localeCompare(_, "zh-CN")], a platform collation. *)
Definition compareTags (localeCompare : string → string → Z)
    (a b : Tag) : Z :=
  if isTimeTag a && negb (isTimeTag b) then (-1)%Z
  else if negb (isTimeTag a) && isTimeTag b then 1%Z
  else localeCompare (tag_name a) (tag_name b).

(** [Array.prototype.sort(compareFn)] is a stable sort: [a] comes before
    [b] when [compareFn(a, b) < 0], and elements that compare as equal
    keep the order they had.  The model inserts each element, from the
    last to the first, before the first later element that it does not
    have to follow. *)
Definition sortsBefore {A} (compareFn : A → A → Z) : relation A :=
  λ a b, (compareFn a b <= 0)%Z.

Global Instance sortsBefore_dec {A} (compareFn : A → A → Z) :
  RelDecision (sortsBefore compareFn).
Proof. intros a b. unfold sortsBefore. apply _. Defined.

Fixpoint insertSorted {A} (compareFn : A → A → Z) (x : A)
    (l : list A) : list A :=
  match l with
  | [] => [x]
  | y :: l' =>
      if decide (sortsBefore compareFn x y) then x :: l
      else y :: insertSorted compareFn x l'
  end.

Definition sortWith {A} (compareFn : A → A → Z) (l : list A) : list A :=
  foldr (insertSorted compareFn) [] l.

(** [handleSave]: the sequence handed to [onUpdateTags]. *)
Definition handleSave (localeCompare : string → string → Z)
    (st : State) : list Tag :=
  sortWith (compareTags localeCompare) (selectedTags st).

(** The order on names that the sorted tail has to respect. *)
Definition nameLe (localeCompare : string → string → Z)
    (a b : Tag) : Prop :=
  (localeCompare (tag_name a) (tag_name b) <= 0)%Z.

(** A concrete collation for examples: code-unit order. *)
Definition codeUnitCompare (a b : string) : Z :=
  match String.compare a b with
  | Eq => 0%Z
  | Lt => (-1)%Z
  | Gt => 1%Z
  end.

End Selection.

(** ** Application state: image collection and tag catalog *)

Module Catalog.

(** What the two screens hold in React state, and the two persisted
    documents (["images"] and ["tagGroups"] in AsyncStorage). *)
Record App := mkApp {
  images : list ImageItem;
  tagGroups : list TagGroup;
  selectedTags : list Tag;
  storedImages : list ImageItem;
  storedTagGroups : list TagGroup;
}.

(** [saveTagGroups(groups)]: [setItem] then [setTagGroups]; a rejected
    write is caught and leaves both untouched. *)
Definition saveTagGroups (writeOk : bool) (groups : list TagGroup)
    (a : App) : App :=
  if writeOk
  then mkApp (images a) groups (selectedTags a) (storedImages a) groups
  else a.

Definition setSelectedTags (tags : list Tag) (a : App) : App :=
  mkApp (images a) (tagGroups a) tags (storedImages a) (storedTagGroups a).

(** [deleteTag(groupId, tagId)]; [confirmed] is the answer to the alert,
    the handler closes over the state [a] of the render that showed it. *)
Definition deleteTag (confirmed writeOk : bool) (groupId tagId : string)
    (a : App) : App :=
  if confirmed then
    let updatedGroups :=
      (λ group,
         if decide (group_id group = groupId)
         then mkTagGroup (group_id group) (group_name group)
                (filter (λ tag, tag_id tag ≠ tagId) (group_tags group))
         else group) <$> tagGroups a in
    setSelectedTags
      (filter (λ tag, tag_id tag ≠ tagId) (selectedTags a))
      (saveTagGroups writeOk updatedGroups a)
  else a.

(** [deleteGroup(groupId)] *)
Definition deleteGroup (confirmed writeOk : bool) (groupId : string)
    (a : App) : App :=
  if confirmed then
    let updatedGroups :=
      filter (λ group, group_id group ≠ groupId) (tagGroups a) in
    setSelectedTags
      (filter (λ tag, tag_groupId tag ≠ Some groupId) (selectedTags a))
      (saveTagGroups writeOk updatedGroups a)
  else a.

(** [updateImageTags(imageId, tags)] of the home screen: [setImages] comes
    before the awaited [setItem], so a rejected write leaves the state
    ahead of the persisted document. *)
Definition updateImageTags (writeOk : bool) (imageId : string)
    (tags : list Tag) (a : App) : App :=
  let updatedImages :=
    (λ img,
       if decide (image_id img = imageId)
       then mkImageItem (image_id img) (image_uri img) tags
       else img) <$> images a in
  mkApp updatedImages (tagGroups a) (selectedTags a)
    (if writeOk then updatedImages else storedImages a)
    (storedTagGroups a).

(** Some selected tag carries this group id. *)
Definition selectsGroup (groupId : string) (tags : list Tag) : bool :=
  existsb (λ t, bool_decide (tag_groupId t = Some groupId)) tags.

End Catalog.

(** ** Export pipeline ([exportImages], app/index.tsx) *)

Module Pipeline.

(** An asset of the photo library: the local file it was created from and
    the image (by uri) whose bytes that file held. *)
Record Asset := mkAsset {
  asset_file : string;
  asset_data : string;
}.

Global Instance Asset_eq_dec : EqDecision Asset.
Proof. solve_decision. Defined.

(** The device: files of the cache directory (path to the uri they were
    copied from), the assets of the photo library in creation order, and
    the members of the album ["picTaging"] when that album exists. *)
Record Device := mkDevice {
  cache : gmap string string;
  library : list Asset;
  album : option (list Asset);
}.

(** Whether each awaited call resolves.  Calls made for an image are
    indexed by the position of the image in [images], the attach call by
    the batch index; the four calls of the album set-up are single. *)
Record Env := mkEnv {
  cacheDirectory : string;
  permission : option bool;     (* requestPermissionsAsync: granted? *)
  albumLookupOk : bool;         (* getAlbumAsync resolves *)
  now : nat → N;                (* Date.now() while naming image i *)
  copyOk : nat → bool;          (* FileSystem.copyAsync *)
  createOk : nat → bool;        (* MediaLibrary.createAssetAsync *)
  deleteOk : nat → bool;        (* FileSystem.deleteAsync *)
  attachOk : nat → bool;        (* MediaLibrary.addAssetsToAlbumAsync *)
  seedCopyOk : bool;
  seedCreateOk : bool;
  albumCreateOk : bool;
  seedDeleteOk : bool;
}.

Definition BATCH_SIZE : nat := 10.

(** What the user is told at the end of [exportImages].  [Exported n m]
    is the success notification with [n = processedCount]; [m] is
    [images.length], announced when the export starts. *)
Inductive Outcome :=
  | NothingToExport
  | PermissionDenied
  | AlbumCreationFailed
  | ExportFailed
  | Exported (exportedCount totalCount : nat).

Global Instance Outcome_eq_dec : EqDecision Outcome.
Proof. solve_decision. Defined.

(** State of the loops: the set of used names, the counter, the device,
    and the assets collected for the batch in progress. *)
Record Loop := mkLoop {
  usedNames : gset string;
  processedCount : nat;
  device : Device;
  batchAssets : list Asset;
}.

Definition tempFileOf (E : Env) (fileName : string) : string :=
  cacheDirectory E +:+ fileName +:+ ".jpg".

(** Body of [for (const img of batchImages)]: the [try] block, with each
    rejection going to the [catch], which only logs and continues. *)
Definition stageImage (E : Env) (i : nat) (img : ImageItem) (s : Loop) : Loop :=
  let '(fileName, used) :=
    Naming.generateUniqueFileName (now E i) (image_tags img) (usedNames s) in
  let tempFile := tempFileOf E fileName in
  let d := device s in
  if copyOk E i then
    let d1 := mkDevice (<[tempFile := image_uri img]> (cache d))
                (library d) (album d) in
    match (if createOk E i then cache d1 !! tempFile else None) with
    | Some data =>
        let asset := mkAsset tempFile data in
        let d2 := mkDevice (cache d1) (library d1 ++ [asset]) (album d1) in
        if deleteOk E i then
          let d3 := mkDevice (delete tempFile (cache d2))
                      (library d2) (album d2) in
          mkLoop used (S (processedCount s)) d3 (batchAssets s ++ [asset])
        else mkLoop used (processedCount s) d2 (batchAssets s ++ [asset])
    | None => mkLoop used (processedCount s) d1 (batchAssets s)
    end
  else mkLoop used (processedCount s) d (batchAssets s).

(** The images [imgs], the first of which has position [i] in [images]. *)
Fixpoint stageImages (E : Env) (i : nat) (imgs : list ImageItem)
    (s : Loop) : Loop :=
  match imgs with
  | [] => s
  | img :: rest => stageImages E (S i) rest (stageImage E i img s)
  end.

(** [images.slice(startIndex, endIndex)] for indices that are not negative *)
Definition slice {A} (startIndex endIndex : nat) (l : list A) : list A :=
  take (endIndex - startIndex) (drop startIndex l).

(** [Math.ceil(n / d)] *)
Definition ceilDiv (n d : nat) : nat :=
  if (n mod d =? 0)%nat then n / d else S (n / d).

(** The attach step that closes a batch. *)
Definition attachBatch (E : Env) (batchIndex : nat) (s : Loop) : Loop :=
  match batchAssets s with
  | [] => s
  | _ :: _ =>
      if attachOk E batchIndex then
        let d := device s in
        mkLoop (usedNames s) (processedCount s)
          (mkDevice (cache d) (library d)
             (Some (default [] (album d) ++ batchAssets s)))
          (batchAssets s)
      else s
  end.

(** Body of [for (let batchIndex = 0; ...)]. *)
Definition exportBatch (E : Env) (images : list ImageItem)
    (s : Loop) (batchIndex : nat) : Loop :=
  let startIndex := batchIndex * BATCH_SIZE in
  let endIndex := (startIndex + BATCH_SIZE) `min` length images in
  let batchImages := slice startIndex endIndex images in
  attachBatch E batchIndex
    (stageImages E startIndex batchImages
       (mkLoop (usedNames s) (processedCount s) (device s) [])).

Definition seedFile (E : Env) : string :=
  cacheDirectory E +:+ "album_init.jpg".

(** The [if (!picTagingAlbum)] block: [inl] is the device once the album
    exists, [inr] the device left behind when the [catch] returns. *)
Definition createAlbum (E : Env) (images : list ImageItem)
    (d : Device) : Device + Device :=
  let tempFile := seedFile E in
  match images with
  | [] => inr d                     (* images[0] is undefined *)
  | img0 :: _ =>
      if seedCopyOk E then
        let d1 := mkDevice (<[tempFile := image_uri img0]> (cache d))
                    (library d) (album d) in
        match (if seedCreateOk E then cache d1 !! tempFile else None) with
        | Some data =>
            let initialAsset := mkAsset tempFile data in
            let d2 := mkDevice (cache d1) (library d1 ++ [initialAsset])
                        (album d1) in
            if albumCreateOk E then
              let d3 := mkDevice (cache d2) (library d2)
                          (Some [initialAsset]) in
              if seedDeleteOk E
              then inl (mkDevice (delete tempFile (cache d3))
                          (library d3) (album d3))
              else inr d3
            else inr d2
        | None => inr d1
        end
      else inr d
  end.

(** The batch loop, from a device on which the album exists. *)
Definition runBatches (E : Env) (images : list ImageItem) (d : Device) : Loop :=
  let totalBatches := ceilDiv (length images) BATCH_SIZE in
  foldl (exportBatch E images) (mkLoop ∅ 0 d []) (seq 0 totalBatches).

(** [getAlbumAsync] and the [if (!picTagingAlbum)] block that follows:
    the album is there, or it is set up from [images]. *)
Definition resolveAlbum (E : Env) (images : list ImageItem)
    (d : Device) : Device + Device :=
  match album d with
  | Some _ => inl d
  | None => createAlbum E images d
  end.

(** [exportImages] *)
Definition exportImages (E : Env) (images : list ImageItem)
    (d : Device) : Outcome * Device :=
  if (length images =? 0)%nat then (NothingToExport, d)
  else
    match permission E with
    | None => (ExportFailed, d)
    | Some false => (PermissionDenied, d)
    | Some true =>
        if albumLookupOk E then
          match resolveAlbum E images d with
          | inl d' =>
              let s := runBatches E images d' in
              (Exported (processedCount s) (length images), device s)
          | inr d' => (AlbumCreationFailed, d')
          end
        else (ExportFailed, d)
    end.

(** *** Vocabulary for the properties of the pipeline *)

(** Staging and asset creation both succeed for the image at position i. *)
Definition succeeded (E : Env) (i : nat) : bool := copyOk E i && createOk E i.

(** ... and its temporary file is released as well. *)
Definition finished (E : Env) (i : nat) : bool := succeeded E i && deleteOk E i.

(** The used-name set after naming [imgs], the first at position [i]. *)
Fixpoint usedAfter (E : Env) (i : nat) (imgs : list ImageItem)
    (used : gset string) : gset string :=
  match imgs with
  | [] => used
  | img :: rest =>
      usedAfter E (S i) rest
        (Naming.generateUniqueFileName (now E i) (image_tags img) used).2
  end.

(** The assets of the images of [imgs] that succeeded, in order, each
    under the name that the image gets in its turn. *)
Fixpoint created (E : Env) (i : nat) (imgs : list ImageItem)
    (used : gset string) : list Asset :=
  match imgs with
  | [] => []
  | img :: rest =>
      let r := Naming.generateUniqueFileName (now E i) (image_tags img) used in
      (if succeeded E i
       then [mkAsset (tempFileOf E r.1) (image_uri img)] else [])
      ++ created E (S i) rest r.2
  end.

(** How many images of [imgs] went through the whole [try] block. *)
Fixpoint completed (E : Env) (i : nat) (imgs : list ImageItem) : nat :=
  match imgs with
  | [] => 0
  | _ :: rest => (if finished E i then 1 else 0) + completed E (S i) rest
  end.

(** The images of [imgs] that succeeded. *)
Fixpoint succeededImages (E : Env) (i : nat)
    (imgs : list ImageItem) : list ImageItem :=
  match imgs with
  | [] => []
  | img :: rest =>
      (if succeeded E i then [img] else []) ++ succeededImages E (S i) rest
  end.

(** The images of batch [b]. *)
Definition batchOf (images : list ImageItem) (b : nat) : list ImageItem :=
  slice (b * BATCH_SIZE) ((b * BATCH_SIZE + BATCH_SIZE) `min` length images)
    images.

End Pipeline.

(** ** Data of the scenarios used below *)

Module Scenarios.

Definition mom : Tag := mkTag "t1" "Mom" None None.
Definition momSelected : Tag := mkTag "t1" "Mom" (Some "g1") None.
Definition dad : Tag := mkTag "t2" "Dad" (Some "g1") None.
Definition time2023 : Tag := mkTag "time-1" "2023-01" None (Some true).
Definition time2024 : Tag := mkTag "time-2" "2024-06" None (Some true).

(** A selection with a catalog tag and a time tag, and new text typed. *)
Definition editing : Selection.State :=
  Selection.mkState [momSelected; time2023] "2024-06".

(** A selection about to be saved. *)
Definition unsaved : Selection.State :=
  Selection.mkState [momSelected; time2024; dad] "".

(** A catalog with one group holding "Mom" and "Dad", one saved image
    tagged "Mom", and both tags selected in the open modal. *)
Definition family : TagGroup :=
  mkTagGroup "g1" "Family" [mom; mkTag "t2" "Dad" None None].

Definition photo : ImageItem :=
  mkImageItem "1" "file:///photo1.jpg" [momSelected].

Definition bothSelected : Catalog.App :=
  Catalog.mkApp [photo] [family] [momSelected; dad] [photo] [family].

(** Devices and environments for the export scenarios. *)
Definition freshDevice : Pipeline.Device := Pipeline.mkDevice ∅ [] None.
Definition deviceWithAlbum : Pipeline.Device :=
  Pipeline.mkDevice ∅ [] (Some []).

Definition clock (i : nat) : N := (1700000000000 + N.of_nat i)%N.

(** Every call resolves. *)
Definition allResolve : Pipeline.Env :=
  Pipeline.mkEnv "cache/" (Some true) true clock
    (λ _, true) (λ _, true) (λ _, true) (λ _, true) true true true true.

(** [createAssetAsync] rejects for the image at position 0. *)
Definition creationRejects : Pipeline.Env :=
  Pipeline.mkEnv "cache/" (Some true) true clock
    (λ _, true) (λ i, negb (i =? 0)) (λ _, true) (λ _, true)
    true true true true.

(** The first image cannot be copied, neither as seed of the album nor in
    its batch; every other call resolves. *)
Definition firstUnreadable : Pipeline.Env :=
  Pipeline.mkEnv "cache/" (Some true) true clock
    (λ i, negb (i =? 0)) (λ _, true) (λ _, true) (λ _, true)
    false true true true.

Definition photo2 : ImageItem :=
  mkImageItem "2" "file:///photo2.jpg" [momSelected].
Definition photo3 : ImageItem :=
  mkImageItem "3" "file:///photo3.jpg" [momSelected].

End Scenarios.

(** ** Home screen: the image collection (app/index.tsx) *)

Module Home.

Definition MAX_IMAGES : nat := 80.

(** The [images] state and the document stored under ["images"], by the
    value it encodes; [None] while nothing was ever written. *)
Record State := mkState {
  images : list ImageItem;
  savedImages : option (list ImageItem);
}.

(** [await AsyncStorage.setItem("images", JSON.stringify(doc))]; a
    rejection is not caught by the handlers below and changes nothing. *)
Definition setItem (writeOk : bool) (doc : list ImageItem)
    (st : State) : State :=
  if writeOk then mkState (images st) (Some doc) else st.

(** [loadImages]; [readOk] is false when [getItem] rejects. *)
Definition loadImages (readOk : bool) (st : State) : State :=
  if readOk then
    match savedImages st with
    | Some doc => mkState doc (savedImages st)
    | None => st
    end
  else st.

(** What [launchCameraAsync] answers. *)
Inductive Camera :=
  | CameraRejects
  | Canceled
  | Captured (uri : string).

(** [takePhoto]; [now] is the reading of [Date.now()]. *)
Definition takePhoto (now : N) (camera : Camera) (writeOk : bool)
    (st : State) : State :=
  if (MAX_IMAGES <=? length (images st))%nat then st
  else
    match camera with
    | Captured uri =>
        let newImage := mkImageItem (pretty now) uri [] in
        let updatedImages := images st ++ [newImage] in
        setItem writeOk updatedImages
          (mkState updatedImages (savedImages st))
    | _ => st
    end.

(** [updateImageTags(imageId, tags)] *)
Definition updateImageTags (writeOk : bool) (imageId : string)
    (tags : list Tag) (st : State) : State :=
  let updatedImages :=
    (λ img,
       if decide (image_id img = imageId)
       then mkImageItem (image_id img) (image_uri img) tags
       else img) <$> images st in
  setItem writeOk updatedImages (mkState updatedImages (savedImages st)).

(** [deleteImage(imageId)]; [confirmed] is the answer to the alert. *)
Definition deleteImage (confirmed writeOk : bool) (imageId : string)
    (st : State) : State :=
  if confirmed then
    let updatedImages :=
      filter (λ img, image_id img ≠ imageId) (images st) in
    setItem writeOk updatedImages (mkState updatedImages (savedImages st))
  else st.

(** [clearAllImages] *)
Definition clearAllImages (confirmed writeOk : bool) (st : State) : State :=
  match images st with
  | [] => st
  | _ :: _ =>
      if confirmed then setItem writeOk [] (mkState [] (savedImages st))
      else st
  end.

(** The modal opens on [selectedImage]: its effect copies the tags of
    the image into the selection and empties the time-tag input. *)
Definition openTagModal (image : option ImageItem) : Selection.State :=
  Selection.mkState (from_option image_tags [] image) "".

(** The save button of the modal: [handleSave] hands the sorted tags to
    [onUpdateTags], that is [updateImageTags(selectedImage?.id || "", tags)]. *)
Definition saveTags (localeCompare : string → string → Z) (writeOk : bool)
    (selectedImage : option ImageItem) (sel : Selection.State)
    (st : State) : State :=
  updateImageTags writeOk (from_option image_id "" selectedImage)
    (Selection.handleSave localeCompare sel) st.

(** Every image of the collection has at most one time tag. *)
Definition allExclusive (imgs : list ImageItem) : Prop :=
  Forall (λ img, Selection.exclusive (image_tags img)) imgs.

(** What the user can do on the home screen, with the outcome of the
    calls each action awaits. *)
Inductive Action :=
  | TakePhoto (now : N) (camera : Camera) (writeOk : bool)
  | UpdateTags (writeOk : bool) (imageId : string) (tags : list Tag)
  | DeleteImage (confirmed writeOk : bool) (imageId : string)
  | ClearAll (confirmed writeOk : bool)
  | Load (readOk : bool).

Definition act (st : State) (a : Action) : State :=
  match a with
  | TakePhoto now camera w => takePhoto now camera w st
  | UpdateTags w imageId tags => updateImageTags w imageId tags st
  | DeleteImage c w imageId => deleteImage c w imageId st
  | ClearAll c w => clearAllImages c w st
  | Load r => loadImages r st
  end.

Definition run (actions : list Action) (st : State) : State :=
  foldl act st actions.

(** The collection and the stored document respect the cap. *)
Definition withinCapacity (st : State) : Prop :=
  length (images st) ≤ MAX_IMAGES ∧
  from_option (λ doc, length doc ≤ MAX_IMAGES) True (savedImages st).

(** The state shows what is stored. *)
Definition inSync (st : State) : Prop := savedImages st = Some (images st).

(** The outcome of the write that an action awaits, if it writes. *)
Definition writeOf (a : Action) : option bool :=
  match a with
  | TakePhoto _ _ w | UpdateTags w _ _ | DeleteImage _ w _ | ClearAll _ w =>
      Some w
  | Load _ => None
  end.

End Home.

(** ** Searching the catalog ([getFilteredGroups], the tag modal) *)

Module Search.

(** [toLowerCase] on one code unit below 256: A-Z and the capital letters
    of Latin-1 (all of 192..222 but the multiplication sign). *)
Definition toLowerCaseUnit (c : ascii) : ascii :=
  let n := nat_of_ascii c in
  if ((65 <=? n) && (n <=? 90)
      || (192 <=? n) && (n <=? 222) && negb (n =? 215))%nat
  then ascii_of_nat (n + 32) else c.

Fixpoint toLowerCase (s : string) : string :=
  match s with
  | EmptyString => EmptyString
  | String c s' => String (toLowerCaseUnit c) (toLowerCase s')
  end.

(** [s.startsWith(p)] *)
Fixpoint startsWith (s p : string) : bool :=
  match p, s with
  | EmptyString, _ => true
  | String _ _, EmptyString => false
  | String b p', String a s' => bool_decide (a = b) && startsWith s' p'
  end.

(** [s.includes(sub)] *)
Fixpoint includes (s sub : string) : bool :=
  startsWith s sub ||
  match s with
  | EmptyString => false
  | String _ s' => includes s' sub
  end.

(** The predicate of the inner [filter]. *)
Definition matches (searchText : string) (tag : Tag) : bool :=
  includes (toLowerCase (tag_name tag)) (toLowerCase searchText).

(** [getFilteredGroups]; [searchText] and [tagGroups] are the state it
    closes over. *)
Definition getFilteredGroups (searchText : string)
    (tagGroups : list TagGroup) : list TagGroup :=
  if decide (Selection.trim searchText = "") then tagGroups
  else
    filter (λ group, group_tags group ≠ [])
      ((λ group,
          mkTagGroup (group_id group) (group_name group)
            (filter (λ tag, matches searchText tag = true)
               (group_tags group))) <$> tagGroups).

(** [clearAllTags] of the modal: nothing to clear, or the confirmed
    reset. *)
Definition clearAllTags (confirmed : bool)
    (st : Selection.State) : Selection.State :=
  match Selection.selectedTags st with
  | [] => st
  | _ :: _ =>
      if confirmed then Selection.mkState [] (Selection.timeTag st) else st
  end.

End Search.

(** ** Tag management screen (addGroup, addTag, deleteGroup, deleteTag) *)

Module Management.

Record State := mkState {
  tagGroups : list TagGroup;
  newGroupName : string;
  newTagName : string;
  selectedGroupId : option string;        (* string | null *)
  savedGroups : option (list TagGroup);   (* document "tagGroups" *)
}.

(** [saveTagGroups(groups)]: the state is set after the write resolved;
    a rejected write is caught and changes nothing. *)
Definition saveTagGroups (writeOk : bool) (groups : list TagGroup)
    (st : State) : State :=
  if writeOk
  then mkState groups (newGroupName st) (newTagName st)
         (selectedGroupId st) (Some groups)
  else st.

(** [loadTagGroups] *)
Definition loadTagGroups (readOk : bool) (st : State) : State :=
  if readOk then
    match savedGroups st with
    | Some doc =>
        mkState doc (newGroupName st) (newTagName st)
          (selectedGroupId st) (savedGroups st)
    | None => st
    end
  else st.

Definition setNewGroupName (text : string) (st : State) : State :=
  mkState (tagGroups st) text (newTagName st) (selectedGroupId st)
    (savedGroups st).

Definition setNewTagName (text : string) (st : State) : State :=
  mkState (tagGroups st) (newGroupName st) text (selectedGroupId st)
    (savedGroups st).

Definition setSelectedGroupId (g : option string) (st : State) : State :=
  mkState (tagGroups st) (newGroupName st) (newTagName st) g
    (savedGroups st).

(** Pressing a group header selects the group or, if it is the selected
    one, clears the selection. *)
Definition pressGroup (groupId : string) (st : State) : State :=
  setSelectedGroupId
    (if decide (selectedGroupId st = Some groupId) then None
     else Some groupId) st.

(** [addGroup] *)
Definition addGroup (now : N) (writeOk : bool) (st : State) : State :=
  if decide (Selection.trim (newGroupName st) = "") then st
  else
    let newGroup := mkTagGroup (pretty now) (newGroupName st) [] in
    let updatedGroups := tagGroups st ++ [newGroup] in
    setNewGroupName "" (saveTagGroups writeOk updatedGroups st).

(** The group id that [addTag] works on: [null] and the empty string are
    both falsy. *)
Definition targetGroup (st : State) : option string :=
  match selectedGroupId st with
  | Some g => if decide (g = "") then None else Some g
  | None => None
  end.

(** [addTag] *)
Definition addTag (now : N) (writeOk : bool) (st : State) : State :=
  if decide (Selection.trim (newTagName st) = "") then st
  else
    match targetGroup st with
    | None => st
    | Some g =>
        let updatedGroups :=
          (λ group,
             if decide (group_id group = g)
             then mkTagGroup (group_id group) (group_name group)
                    (group_tags group
                     ++ [mkTag (pretty now) (newTagName st) None None])
             else group) <$> tagGroups st in
        setNewTagName "" (saveTagGroups writeOk updatedGroups st)
    end.

(** [deleteGroup(groupId)] *)
Definition deleteGroup (confirmed writeOk : bool) (groupId : string)
    (st : State) : State :=
  if confirmed then
    let updatedGroups :=
      filter (λ group, group_id group ≠ groupId) (tagGroups st) in
    let st' := saveTagGroups writeOk updatedGroups st in
    if decide (selectedGroupId st = Some groupId)
    then setSelectedGroupId None st' else st'
  else st.

(** [deleteTag(groupId, tagId)] *)
Definition deleteTag (confirmed writeOk : bool) (groupId tagId : string)
    (st : State) : State :=
  if confirmed then
    let updatedGroups :=
      (λ group,
         if decide (group_id group = groupId)
         then mkTagGroup (group_id group) (group_name group)
                (filter (λ tag, tag_id tag ≠ tagId) (group_tags group))
         else group) <$> tagGroups st in
    saveTagGroups writeOk updatedGroups st
  else st.

(** What the user can do on the screen, with the outcome of the calls
    each action awaits. *)
Inductive Action :=
  | TypeGroupName (text : string)
  | TypeTagName (text : string)
  | PressGroup (groupId : string)
  | AddGroup (now : N) (writeOk : bool)
  | AddTag (now : N) (writeOk : bool)
  | DeleteGroup (confirmed writeOk : bool) (groupId : string)
  | DeleteTag (confirmed writeOk : bool) (groupId tagId : string)
  | Reload (readOk : bool).

Definition act (st : State) (a : Action) : State :=
  match a with
  | TypeGroupName text => setNewGroupName text st
  | TypeTagName text => setNewTagName text st
  | PressGroup g => pressGroup g st
  | AddGroup now w => addGroup now w st
  | AddTag now w => addTag now w st
  | DeleteGroup c w g => deleteGroup c w g st
  | DeleteTag c w g t => deleteTag c w g t st
  | Reload r => loadTagGroups r st
  end.

Definition run (actions : list Action) (st : State) : State :=
  foldl act st actions.

(** The screen when it has loaded an empty catalog document. *)
Definition initial : State := mkState [] "" "" None (Some []).

(** The state shows what is stored. *)
Definition inSync (st : State) : Prop :=
  savedGroups st = Some (tagGroups st).

(** A catalog tag as [addTag] builds it: id and name only. *)
Definition plainTag (t : Tag) : Prop :=
  tag_groupId t = None ∧ tag_isTimeTag t = None.

Definition plainCatalog (groups : list TagGroup) : Prop :=
  Forall (λ g, Forall plainTag (group_tags g)) groups.

End Management.

(** ** Vocabulary and data for the properties beyond the claims *)

Module Runs.

(** The assets that reach the album in the first [b] batches: those of
    the batches whose attach call resolves. *)
Fixpoint attached (E : Pipeline.Env) (images : list ImageItem)
    (b : nat) : list Pipeline.Asset :=
  match b with
  | O => []
  | S b' =>
      attached E images b'
      ++ (if Pipeline.attachOk E b'
          then Pipeline.created E (b' * Pipeline.BATCH_SIZE)
                 (Pipeline.batchOf images b')
                 (Pipeline.usedAfter E 0
                    (take (b' * Pipeline.BATCH_SIZE) images) ∅)
          else [])
  end.

(** The names given to [imgs] in turn, the first at position [i]. *)
Fixpoint names (E : Pipeline.Env) (i : nat) (imgs : list ImageItem)
    (used : gset string) : list string :=
  match imgs with
  | [] => []
  | img :: rest =>
      let r := Naming.generateUniqueFileName (Pipeline.now E i)
                 (image_tags img) used in
      r.1 :: names E (S i) rest r.2
  end.

Definition untagged1 : ImageItem := mkImageItem "4" "file:///photo4.jpg" [].

(** The second attach call is rejected. *)
Definition secondAttachRejects : Pipeline.Env :=
  Pipeline.mkEnv "cache/" (Some true) true Scenarios.clock
    (λ _, true) (λ _, true) (λ _, true) (λ b, negb (b =? 1))
    true true true true.

Definition twelve : list ImageItem :=
  replicate 12 Scenarios.photo.

(** [deleteAsync] rejects for the image at position 0. *)
Definition releaseRejects : Pipeline.Env :=
  Pipeline.mkEnv "cache/" (Some true) true Scenarios.clock
    (λ _, true) (λ _, true) (λ i, negb (i =? 0)) (λ _, true)
    true true true true.

(** An image whose only tag is named like the seed file of the album. *)
Definition seedNamed : ImageItem :=
  mkImageItem "5" "file:///photo5.jpg" [mkTag "t9" "album_init" None None].

(** Three tags with one name, selected in this order. *)
Definition same1 : Tag := mkTag "a1" "Same" (Some "g1") None.
Definition same2 : Tag := mkTag "a2" "Same" (Some "g2") None.
Definition same3 : Tag := mkTag "a3" "Same" (Some "g3") None.

Definition catalog2 : list TagGroup :=
  [mkTagGroup "g1" "Family" [mkTag "t1" "Mom" None None;
                             mkTag "t2" "Dad" None None];
   mkTagGroup "g2" "Places" [mkTag "t3" "Home" None None]].

End Runs.

(** * Properties *)

(** ** Facts about file names *)

Section naming_facts.
Import Naming.

Lemma length_append (s1 s2 : string) :
  String.length (s1 +:+ s2) = String.length s1 + String.length s2.
Proof. induction s1 as [|c s1 IH]; simpl; [done|]. by rewrite IH. Qed.

Lemma suffixed_ne_base (base : string) k : suffixed base k ≠ base.
Proof.
  unfold suffixed. intros Heq.
  apply (f_equal String.length) in Heq.
  rewrite !length_append in Heq. simpl in Heq. lia.
Qed.

Lemma suffixed_inj (base : string) j k :
  suffixed base j = suffixed base k → j = k.
Proof.
  unfold suffixed. intros Heq.
  apply (inj (String.app base)) in Heq.
  apply (inj (String.app "_")) in Heq.
  by apply (inj pretty) in Heq.
Qed.

Global Instance candidate_inj (base : string) : Inj (=) (=) (candidate base).
Proof.
  intros [|j] [|k] Heq; simpl in Heq; [done| | |].
  - symmetry in Heq. by apply suffixed_ne_base in Heq.
  - by apply suffixed_ne_base in Heq.
  - by apply suffixed_inj in Heq.
Qed.

(** The loop started on the k-th candidate stops on the first candidate
    from k on that is not used, provided the fuel reaches that far. *)
Lemma uniqueLoop_finds (used : gset string) (base : string) m :
  ∀ k fuel,
    (candidate base (k + m) ∉ used) →
    (∀ j, k ≤ j < k + m → candidate base j ∈ used) →
    m ≤ fuel →
    uniqueLoop fuel used base (candidate base k) (S k)
    = Some (candidate base (k + m)).
Proof.
  induction m as [|m IH]; intros k fuel Hfree Hused Hfuel.
  - rewrite Nat.add_0_r in Hfree |- *.
    destruct fuel; simpl; by rewrite decide_False.
  - destruct fuel as [|fuel]; [lia|]. simpl.
    rewrite decide_True by (apply Hused; lia).
    change (suffixed base (S k)) with (candidate base (S k)).
    rewrite (IH (S k) fuel).
    + do 2 f_equal. lia.
    + by replace (S k + m) with (k + S m) by lia.
    + intros j Hj. apply Hused. lia.
    + lia.
Qed.

(** A finite set cannot hold more candidates than it has elements. *)
Lemma candidates_not_all_used (used : gset string) (base : string) :
  ¬ ∀ j, j ≤ size used → candidate base j ∈ used.
Proof.
  intros Hall.
  pose (cands := candidate base <$> seq 0 (S (size used))).
  assert (Hsub : (list_to_set cands : gset string) ⊆ used).
  { intros x Hx. apply elem_of_list_to_set in Hx.
    apply list_elem_of_fmap in Hx as (j & -> & Hj).
    apply elem_of_seq in Hj. apply Hall. lia. }
  apply subseteq_size in Hsub.
  rewrite size_list_to_set in Hsub.
  - unfold cands in Hsub. rewrite length_fmap, length_seq in Hsub. lia.
  - apply NoDup_fmap_2; [apply _|apply NoDup_seq].
Qed.

Lemma first_unused_or_all_used (used : gset string) (base : string) n :
  (∀ j, j < n → candidate base j ∈ used) ∨
  (∃ m, m < n ∧ (candidate base m ∉ used) ∧
        ∀ j, j < m → candidate base j ∈ used).
Proof.
  induction n as [|n [IH|(m & Hm & Hfree & Hlow)]].
  - left. intros j Hj. lia.
  - destruct (decide (candidate base n ∈ used)) as [Hin|Hout].
    + left. intros j Hj. destruct (decide (j = n)) as [->|]; [done|].
      apply IH. lia.
    + right. exists n. split; [lia|]. split; [done|]. intros j Hj. by apply IH.
  - right. exists m. split; [lia|]. done.
Qed.

Lemma first_unused_exists (used : gset string) (base : string) :
  ∃ m, m ≤ size used ∧ (candidate base m ∉ used) ∧
       ∀ j, j < m → candidate base j ∈ used.
Proof.
  destruct (first_unused_or_all_used used base (S (size used)))
    as [Hall|(m & Hm & Hfree & Hlow)].
  - exfalso. apply (candidates_not_all_used used base).
    intros j Hj. apply Hall. lia.
  - exists m. split; [lia|]. done.
Qed.

(** The fuel of [generateUniqueFileName] is enough: the loop returns. *)
Lemma uniqueLoop_enough_fuel (used : gset string) (base : string) :
  ∃ m, m ≤ size used ∧
       uniqueLoop (S (size used)) used base base 1 = Some (candidate base m) ∧
       (candidate base m ∉ used) ∧
       ∀ j, j < m → candidate base j ∈ used.
Proof.
  destruct (first_unused_exists used base) as (m & Hm & Hfree & Hlow).
  exists m. split; [done|]. split; [|done].
  change base with (candidate base 0) at 2.
  rewrite (uniqueLoop_finds used base m 0 (S (size used))); [done|done| |lia].
  intros j Hj. apply Hlow. lia.
Qed.

Lemma generateUniqueFileName_tagged now tags (used : gset string) :
  tags ≠ [] →
  ∃ m, m ≤ size used ∧
       generateUniqueFileName now tags used
       = (candidate (baseFileNameOf tags) m,
          {[candidate (baseFileNameOf tags) m]} ∪ used) ∧
       uniqueLoop (S (size used)) used (baseFileNameOf tags)
         (baseFileNameOf tags) 1
       = Some (candidate (baseFileNameOf tags) m) ∧
       (candidate (baseFileNameOf tags) m ∉ used) ∧
       ∀ j, j < m → candidate (baseFileNameOf tags) j ∈ used.
Proof.
  intros Hne.
  destruct (uniqueLoop_enough_fuel used (baseFileNameOf tags))
    as (m & Hm & Hloop & Hfree & Hlow).
  exists m. split; [done|]. split; [|done].
  destruct tags as [|t tags]; [done|].
  unfold generateUniqueFileName. by rewrite Hloop.
Qed.

(** With tags, the call only depends on the base name. *)
Lemma generateUniqueFileName_base now tags (used : gset string) base :
  baseFileNameOf tags = base → tags ≠ [] →
  generateUniqueFileName now tags used
  = (default base (uniqueLoop (S (size used)) used base base 1),
     {[default base (uniqueLoop (S (size used)) used base base 1)]} ∪ used).
Proof. intros <- Hne. by destruct tags. Qed.

(** Without tags the set is not consulted and not extended. *)
Lemma generateUniqueFileName_untagged now (used : gset string) :
  generateUniqueFileName now [] used = ("image_" +:+ pretty now, used).
Proof. done. Qed.

(** C1. Three images whose tag-derived base names are all "Mom", named
    in order from the empty set of an export run, get "Mom", "Mom_1" and
    "Mom_2".  In general, for an image with tags, the loop returns within
    its fuel, and the name returned is the first of base, base_1,
    base_2, ... that is not in the used-name set; it is then recorded. *)
Theorem C1_first_unused_suffix :
  (∀ now1 now2 now3 tags1 tags2 tags3,
     baseFileNameOf tags1 = "Mom" →
     baseFileNameOf tags2 = "Mom" →
     baseFileNameOf tags3 = "Mom" →
     let r1 := generateUniqueFileName now1 tags1 ∅ in
     let r2 := generateUniqueFileName now2 tags2 r1.2 in
     let r3 := generateUniqueFileName now3 tags3 r2.2 in
     [r1.1; r2.1; r3.1] = ["Mom"; "Mom_1"; "Mom_2"]) ∧
  (∀ now tags (used : gset string),
     tags ≠ [] →
     ∃ m, m ≤ size used ∧
          generateUniqueFileName now tags used
          = (candidate (baseFileNameOf tags) m,
             {[candidate (baseFileNameOf tags) m]} ∪ used) ∧
          uniqueLoop (S (size used)) used (baseFileNameOf tags)
            (baseFileNameOf tags) 1
          = Some (candidate (baseFileNameOf tags) m) ∧
          (candidate (baseFileNameOf tags) m ∉ used) ∧
          ∀ j, j < m → candidate (baseFileNameOf tags) j ∈ used).
Proof.
  split.
  - intros now1 now2 now3 tags1 tags2 tags3 H1 H2 H3 r1 r2 r3.
    assert (Hne : ∀ tags, baseFileNameOf tags = "Mom" → tags ≠ [])
      by (by intros tags Heq ->).
    subst r1 r2 r3.
    rewrite (generateUniqueFileName_base now1 tags1 ∅ "Mom") by auto.
    rewrite (generateUniqueFileName_base now2 tags2 _ "Mom") by auto.
    rewrite (generateUniqueFileName_base now3 tags3 _ "Mom") by auto.
    by vm_compute.
  - intros now tags used Hne. by apply generateUniqueFileName_tagged.
Qed.

Lemma C1_first_unused_suffix_witness :
  (let r1 := generateUniqueFileName 1 [Scenarios.momSelected] ∅ in
   let r2 := generateUniqueFileName 2 [Scenarios.momSelected] r1.2 in
   let r3 := generateUniqueFileName 3 [Scenarios.momSelected] r2.2 in
   [r1.1; r2.1; r3.1] = ["Mom"; "Mom_1"; "Mom_2"]) ∧
  (∃ m, m ≤ size ({["Mom"]} : gset string) ∧
        generateUniqueFileName 4 [Scenarios.momSelected] {["Mom"]}
        = (candidate "Mom" m, {[candidate "Mom" m]} ∪ {["Mom"]}) ∧
        uniqueLoop (S (size ({["Mom"]} : gset string))) {["Mom"]} "Mom" "Mom" 1
        = Some (candidate "Mom" m) ∧
        (candidate "Mom" m ∉ ({["Mom"]} : gset string)) ∧
        ∀ j, j < m → candidate "Mom" j ∈ ({["Mom"]} : gset string)).
Proof.
  split.
  - apply (proj1 C1_first_unused_suffix); reflexivity.
  - apply (proj2 C1_first_unused_suffix 4%N [Scenarios.momSelected] {["Mom"]}).
    discriminate.
Defined.

(** C2 (code at the failing input). An image without tags gets the name
    image_<clock reading>; the call leaves the used-name set as it was,
    so the name is not recorded, and a second call at the same clock
    reading returns the same name again. *)
Theorem C2_untagged_name_not_recorded :
  (∀ now (used : gset string),
     let r1 := generateUniqueFileName now [] used in
     let r2 := generateUniqueFileName now [] r1.2 in
     r1.1 = "image_" +:+ pretty now ∧ r1.2 = used ∧ r2.1 = r1.1) ∧
  (let r1 := generateUniqueFileName 1700000000000 [] ∅ in
   r1.1 = "image_1700000000000" ∧ r1.1 ∉ r1.2).
Proof.
  split.
  - intros now used. simpl. done.
  - simpl. split; [by vm_compute|]. apply not_elem_of_empty.
Qed.

(** The same name can also come from a tagged image: the name of an
    untagged image is returned without consulting the set. *)
Lemma untagged_name_may_repeat_tagged_name :
  let r1 := generateUniqueFileName 0
              [mkTag "a" "image" None None; mkTag "b" "5" None None] ∅ in
  let r2 := generateUniqueFileName 5 [] r1.2 in
  r1.1 = "image_5" ∧ r2.1 = "image_5".
Proof. by vm_compute. Qed.

End naming_facts.

(** ** Facts about the tag selection model *)

Section selection_facts.
Import Selection.

Lemma trimStart_empty_iff s : trimStart s = "" ↔ whitespaceOnly s = true.
Proof.
  induction s as [|c s IH]; simpl; [done|].
  destruct (isWhiteSpace c); simpl; [done|]. split; discriminate.
Qed.

Lemma trimEnd_empty_iff s : trimEnd s = "" ↔ whitespaceOnly s = true.
Proof.
  induction s as [|c s IH]; simpl; [done|].
  destruct (trimEnd s) eqn:Hs.
  - destruct (isWhiteSpace c); simpl; [|split; discriminate].
    split; intros _; [by apply IH|done].
  - split; [discriminate|]. intros [_ Hw]%andb_true_iff.
    apply IH in Hw. discriminate.
Qed.

Lemma trimStart_idemp s :
  whitespaceOnly (trimStart s) = true → trimStart s = "".
Proof.
  induction s as [|c s IH]; simpl; [done|].
  destruct (isWhiteSpace c) eqn:Hc; [done|]. simpl. by rewrite Hc.
Qed.

(** [!text.trim()] holds exactly for whitespace-only text. *)
Lemma trim_empty_iff s : trim s = "" ↔ whitespaceOnly s = true.
Proof.
  unfold trim. rewrite trimEnd_empty_iff. split.
  - intros Hw. by apply trimStart_empty_iff, trimStart_idemp.
  - intros Hw. apply trimStart_empty_iff in Hw. by rewrite Hw.
Qed.

Lemma findIndexFrom_spec {A} (p : A → bool) (l : list A) (k : Z) :
  (0 <= k)%Z →
  (findIndexFrom p l k = (-1)%Z ∧ Forall (λ x, p x = false) l) ∨
  (∃ i x, findIndexFrom p l k = (k + Z.of_nat i)%Z ∧ l !! i = Some x ∧
          p x = true ∧ Forall (λ y, p y = false) (take i l)).
Proof.
  revert k. induction l as [|a l IH]; intros k Hk; simpl.
  - left. by split.
  - destruct (p a) eqn:Ha.
    + right. exists 0, a. simpl. repeat split; [lia|done|constructor].
    + destruct (IH (k + 1)%Z) as [[Heq Hall]|(i & x & Heq & Hi & Hx & Hall)];
        [lia| |].
      * left. split; [done|]. by constructor.
      * right. exists (S i), x. simpl. repeat split; [lia|done|done|].
        by constructor.
Qed.

Lemma timeTagCount_app l1 l2 :
  timeTagCount (l1 ++ l2) = timeTagCount l1 + timeTagCount l2.
Proof. unfold timeTagCount. by rewrite filter_app, length_app. Qed.

Lemma filter_time_none (l : list Tag) :
  Forall (λ t, isTimeTag t = false) l →
  filter (λ t, isTimeTag t = true) l = [].
Proof.
  induction 1 as [|t l Ht _ IH]; [done|].
  rewrite filter_cons_False by congruence. done.
Qed.

Lemma timeTagCount_zero (l : list Tag) :
  timeTagCount l = 0 ↔ Forall (λ t, isTimeTag t = false) l.
Proof.
  split.
  - unfold timeTagCount. induction l as [|t l IH]; [constructor|].
    destruct (isTimeTag t) eqn:Ht.
    + rewrite filter_cons_True by done. simpl. lia.
    + rewrite filter_cons_False by congruence. intros Hl.
      constructor; [done|]. by apply IH.
  - intros Hall. unfold timeTagCount. by rewrite filter_time_none.
Qed.

(** Under exclusivity a time tag splits the selection into two parts
    without time tags. *)
Lemma exclusive_split (l : list Tag) i old :
  exclusive l → l !! i = Some old → isTimeTag old = true →
  Forall (λ t, isTimeTag t = false) (take i l) ∧
  Forall (λ t, isTimeTag t = false) (drop (S i) l).
Proof.
  intros Hex Hi Hold. unfold exclusive in Hex.
  rewrite <-(take_drop_middle l i old Hi) in Hex.
  rewrite timeTagCount_app in Hex.
  change (old :: drop (S i) l) with ([old] ++ drop (S i) l) in Hex.
  rewrite timeTagCount_app in Hex.
  assert (timeTagCount [old] = 1) as Hone.
  { unfold timeTagCount. by rewrite filter_cons_True. }
  split; apply timeTagCount_zero; lia.
Qed.

Lemma exclusive_index_unique (l : list Tag) i j ti tj :
  exclusive l →
  l !! i = Some ti → isTimeTag ti = true →
  l !! j = Some tj → isTimeTag tj = true →
  i = j.
Proof.
  intros Hex Hi Hti Hj Htj.
  destruct (exclusive_split l i ti Hex Hi Hti) as [Hbefore Hafter].
  destruct (Nat.lt_trichotomy j i) as [Hlt|[->|Hgt]]; [|done|].
  - rewrite Forall_lookup in Hbefore.
    specialize (Hbefore j tj). rewrite lookup_take_lt in Hbefore by done.
    specialize (Hbefore Hj). congruence.
  - rewrite Forall_lookup in Hafter.
    specialize (Hafter (j - S i) tj). rewrite lookup_drop in Hafter.
    replace (S i + (j - S i)) with j in Hafter by lia.
    specialize (Hafter Hj). congruence.
Qed.

Lemma findIndex_exclusive (l : list Tag) i old :
  exclusive l → l !! i = Some old → isTimeTag old = true →
  findIndex isTimeTag l = Z.of_nat i.
Proof.
  intros Hex Hi Hold. unfold findIndex.
  destruct (findIndexFrom_spec isTimeTag l 0)
    as [[_ Hall]|(j & x & Heq & Hj & Hx & _)]; [lia| |].
  - rewrite Forall_lookup in Hall. specialize (Hall i old Hi). congruence.
  - rewrite Heq. f_equal.
    rewrite (exclusive_index_unique l i j old x); [lia|done..].
Qed.

Lemma filter_time_replace (l : list Tag) i old new :
  exclusive l → l !! i = Some old → isTimeTag old = true →
  isTimeTag new = true →
  filter (λ t, isTimeTag t = true) (<[i := new]> l) = [new].
Proof.
  intros Hex Hi Hold Hnew.
  destruct (exclusive_split l i old Hex Hi Hold) as [Hbefore Hafter].
  rewrite insert_take_drop by (by eapply lookup_lt_Some).
  rewrite filter_app, filter_cons_True by done.
  by rewrite !filter_time_none.
Qed.

Lemma filter_time_append (l : list Tag) new :
  Forall (λ t, isTimeTag t = false) l → isTimeTag new = true →
  filter (λ t, isTimeTag t = true) (l ++ [new]) = [new].
Proof.
  intros Hall Hnew. rewrite filter_app, filter_time_none by done.
  by rewrite filter_cons_True.
Qed.

(** C6. From a selection with at most one time tag, [addTimeTag] leaves
    at most one time tag.  Blank (whitespace-only) text changes nothing.
    Otherwise the selection then holds exactly one time tag, the new one,
    whose name is the raw text: it takes the place (same index) of the
    time tag that was there, or is appended when there was none. *)
Theorem C6_addTimeTag_exclusive now (st : State) :
  exclusive (selectedTags st) →
  let st' := addTimeTag now st in
  let new := mkTag ("time-" +:+ pretty now) (timeTag st) None (Some true) in
  exclusive (selectedTags st') ∧
  (whitespaceOnly (timeTag st) = true → st' = st) ∧
  (whitespaceOnly (timeTag st) = false →
     filter (λ t, isTimeTag t = true) (selectedTags st') = [new] ∧
     tag_name new = timeTag st ∧
     (∀ i old, selectedTags st !! i = Some old → isTimeTag old = true →
               selectedTags st' = <[i := new]> (selectedTags st)) ∧
     (timeTagCount (selectedTags st) = 0 →
               selectedTags st' = selectedTags st ++ [new])).
Proof.
  intros Hex st' new. subst st'. unfold addTimeTag.
  destruct (decide (trim (timeTag st) = "")) as [Hblank|Hfull].
  - apply trim_empty_iff in Hblank.
    split; [done|]. split; [done|]. intros Hw. congruence.
  - assert (whitespaceOnly (timeTag st) = false) as Hw.
    { destruct (whitespaceOnly (timeTag st)) eqn:Hw; [|done].
      by apply trim_empty_iff in Hw. }
    fold new. cbn [selectedTags].
    assert (Hnew : isTimeTag new = true) by done.
    unfold findIndex.
    destruct (findIndexFrom_spec isTimeTag (selectedTags st) 0)
      as [[Heq Hall]|(i & x & Heq & Hi & Hx & _)]; [lia| |].
    + rewrite Heq. simpl.
      pose proof (filter_time_append _ new Hall Hnew) as Hfilter.
      split; [|split; [intros; congruence|]].
      { unfold exclusive, timeTagCount. by rewrite Hfilter. }
      intros _. split; [done|]. split; [done|]. split; [|done].
      intros j old Hj Hold. rewrite Forall_lookup in Hall.
      specialize (Hall j old Hj). congruence.
    + rewrite Heq, Z.add_0_l.
      assert ((0 <=? Z.of_nat i)%Z = true) as -> by lia.
      rewrite Nat2Z.id.
      pose proof (filter_time_replace _ i x new Hex Hi Hx Hnew) as Hfilter.
      split; [|split; [intros; congruence|]].
      { unfold exclusive, timeTagCount. by rewrite Hfilter. }
      intros _. split; [done|]. split; [done|]. split.
      * intros j old Hj Hold.
        by rewrite (exclusive_index_unique _ j i old x Hex Hj Hold Hi Hx).
      * intros Hzero. apply timeTagCount_zero in Hzero.
        rewrite Forall_lookup in Hzero. specialize (Hzero i x Hi). congruence.
Qed.

Lemma C6_addTimeTag_exclusive_witness :
  exclusive (selectedTags Scenarios.editing) ∧
  selectedTags (addTimeTag 2 Scenarios.editing)
  = [Scenarios.momSelected; Scenarios.time2024].
Proof.
  assert (Hex : exclusive (selectedTags Scenarios.editing))
    by (vm_compute; lia).
  split; [exact Hex|].
  destruct (C6_addTimeTag_exclusive 2 Scenarios.editing Hex)
    as (_ & _ & Hfull).
  destruct (Hfull eq_refl) as (_ & _ & Hreplace & _).
  rewrite (Hreplace 1 Scenarios.time2023); reflexivity.
Defined.

Lemma hasId_filter_out id (l : list Tag) :
  hasId id (filter (λ t, tag_id t ≠ id) l) = false.
Proof.
  induction l as [|t l IH]; [done|].
  destruct (decide (tag_id t = id)) as [Heq|Hne].
  - rewrite filter_cons_False by (intros ?; done). done.
  - rewrite filter_cons_True by done. simpl.
    rewrite bool_decide_eq_false_2 by done. done.
Qed.

Lemma hasId_app id (l1 l2 : list Tag) :
  hasId id (l1 ++ l2) = hasId id l1 || hasId id l2.
Proof. unfold hasId. apply existsb_app. Qed.

(** One call flips the membership of the id of its tag. *)
Lemma toggleTag_flips groupId tag (sel : list Tag) :
  hasId (tag_id tag) (toggleTag groupId tag sel)
  = negb (hasId (tag_id tag) sel).
Proof.
  unfold toggleTag. destruct (hasId (tag_id tag) sel) eqn:Hsel; simpl.
  - apply hasId_filter_out.
  - rewrite hasId_app, Hsel. simpl. by rewrite bool_decide_eq_true_2.
Qed.

Lemma toggleAll_membership id (calls : list (string * Tag)) :
  ∀ sel : list Tag,
    Forall (λ c, tag_id c.2 = id) calls →
    hasId id (toggleAll calls sel)
    = xorb (hasId id sel) (Nat.odd (length calls)).
Proof.
  induction calls as [|[g t] calls IH]; intros sel Hall; simpl.
  - by rewrite xorb_false_r.
  - apply Forall_cons in Hall as [Hid Hrest]. simpl in Hid.
    unfold toggleAll in IH |- *. simpl.
    rewrite IH by done. subst id. rewrite toggleTag_flips.
    rewrite Nat.odd_succ, <-Nat.negb_odd.
    by destruct (hasId (tag_id t) sel), (Nat.odd (length calls)).
Qed.

(** C8. For calls of [toggleTag] that all carry the same tag id, an even
    number of calls leaves the membership of that id in the selection as
    it was and an odd number flips it.  One call removes the tags with
    that id when one is selected, and otherwise appends the tag stamped
    with the group id. *)
Theorem C8_toggle_parity id (calls : list (string * Tag)) (sel : list Tag) :
  Forall (λ c, tag_id c.2 = id) calls →
  (Nat.even (length calls) = true →
     hasId id (toggleAll calls sel) = hasId id sel) ∧
  (Nat.odd (length calls) = true →
     hasId id (toggleAll calls sel) = negb (hasId id sel)) ∧
  (∀ groupId tag, tag_id tag = id →
     (hasId id sel = true →
        toggleTag groupId tag sel = filter (λ t, tag_id t ≠ id) sel) ∧
     (hasId id sel = false →
        toggleTag groupId tag sel
        = sel ++ [mkTag (tag_id tag) (tag_name tag) (Some groupId)
                    (tag_isTimeTag tag)])).
Proof.
  intros Hall. pose proof (toggleAll_membership id calls sel Hall) as Hmem.
  split; [|split].
  - intros Heven. rewrite <-Nat.negb_odd in Heven.
    apply negb_true_iff in Heven. rewrite Hmem, Heven. apply xorb_false_r.
  - intros Hodd. rewrite Hmem, Hodd. apply xorb_true_r.
  - intros groupId tag <-. unfold toggleTag.
    split; intros ->; done.
Qed.

Lemma C8_toggle_parity_witness :
  hasId "t1" (toggleAll [("g1", Scenarios.mom); ("g1", Scenarios.mom)] [])
  = hasId "t1" [] ∧
  hasId "t1" (toggleAll [("g1", Scenarios.mom)] []) = negb (hasId "t1" []).
Proof.
  split.
  - apply (C8_toggle_parity "t1"
             [("g1", Scenarios.mom); ("g1", Scenarios.mom)] []).
    + repeat constructor.
    + reflexivity.
  - apply (C8_toggle_parity "t1" [("g1", Scenarios.mom)] []).
    + repeat constructor.
    + reflexivity.
Defined.

End selection_facts.

(** ** The sort of [handleSave] *)

Section sort_facts.
Import Selection.
Context {A : Type} (compareFn : A → A → Z).

Lemma insertSorted_Permutation x (l : list A) :
  insertSorted compareFn x l ≡ₚ x :: l.
Proof.
  induction l as [|y l IH]; simpl; [done|].
  case_decide; [done|]. rewrite IH. apply Permutation_swap.
Qed.

Lemma sortWith_Permutation (l : list A) : sortWith compareFn l ≡ₚ l.
Proof.
  induction l as [|x l IH]; simpl; [done|].
  unfold sortWith in *. simpl. by rewrite insertSorted_Permutation, IH.
Qed.

Lemma insertSorted_StronglySorted
    `{!Total (sortsBefore compareFn), !Transitive (sortsBefore compareFn)}
    x (l : list A) :
  StronglySorted (sortsBefore compareFn) l →
  StronglySorted (sortsBefore compareFn) (insertSorted compareFn x l).
Proof.
  induction 1 as [|y l Hl IH Hy]; simpl.
  - repeat constructor.
  - case_decide as Hxy.
    + constructor; [by constructor|]. constructor; [done|].
      eapply Forall_impl; [exact Hy|]. intros z Hz. by etrans.
    + assert (sortsBefore compareFn y x) as Hyx
        by (by destruct (total (sortsBefore compareFn) x y)).
      constructor; [done|].
      apply Forall_forall. intros z Hz.
      apply (elem_of_Permutation_proper z _ _
               (insertSorted_Permutation x l)) in Hz.
      apply elem_of_cons in Hz as [->|Hz]; [done|].
      rewrite Forall_forall in Hy. by apply Hy.
Qed.

Lemma sortWith_StronglySorted
    `{!Total (sortsBefore compareFn), !Transitive (sortsBefore compareFn)}
    (l : list A) :
  StronglySorted (sortsBefore compareFn) (sortWith compareFn l).
Proof.
  induction l as [|x l IH]; [constructor|].
  unfold sortWith in *. simpl. by apply insertSorted_StronglySorted.
Qed.

Lemma filter_insertSorted_in (P : A → Prop) `{∀ a, Decision (P a)}
    x (l : list A) :
  P x → (∀ b, P b → sortsBefore compareFn x b) →
  filter P (insertSorted compareFn x l) = x :: filter P l.
Proof.
  intros Hx Hties. induction l as [|y l IH]; simpl.
  - by rewrite filter_cons_True.
  - case_decide as Hxy.
    + by rewrite filter_cons_True.
    + assert (¬ P y) as Hy by (intros Hy; by apply Hxy, Hties).
      rewrite !(filter_cons_False _ y) by done. exact IH.
Qed.

Lemma filter_insertSorted_out (P : A → Prop) `{∀ a, Decision (P a)}
    x (l : list A) :
  ¬ P x → filter P (insertSorted compareFn x l) = filter P l.
Proof.
  intros Hx. induction l as [|y l IH]; simpl.
  - by rewrite filter_cons_False.
  - case_decide as Hxy.
    + by rewrite filter_cons_False.
    + rewrite !(filter_cons P y). by rewrite IH.
Qed.

(** The sort is stable: elements that all compare as equal to one
    another come out in the order in which they went in. *)
Lemma sortWith_stable (P : A → Prop) `{∀ a, Decision (P a)} (l : list A) :
  (∀ a b, P a → P b → sortsBefore compareFn a b) →
  filter P (sortWith compareFn l) = filter P l.
Proof.
  intros Hties. induction l as [|x l IH]; [done|].
  unfold sortWith in *. simpl.
  destruct (decide (P x)) as [Hx|Hx].
  - rewrite filter_insertSorted_in by eauto.
    by rewrite filter_cons_True, IH.
  - rewrite filter_insertSorted_out by done.
    by rewrite filter_cons_False, IH.
Qed.

(** A sequence that is in order already is left as it is. *)
Lemma sortWith_sorted (l : list A) :
  StronglySorted (sortsBefore compareFn) l → sortWith compareFn l = l.
Proof.
  induction 1 as [|x l Hl IH Hx]; [done|].
  unfold sortWith in *. simpl. rewrite IH.
  destruct l as [|y l]; [done|]. simpl.
  apply Forall_cons in Hx as [Hxy _]. by rewrite decide_True.
Qed.

End sort_facts.

(** ** Saving sorts the selection *)

Section save_sorted.
Import Selection.

(** The collation is only known through its contract: the comparison is
    total and transitive. *)
Variable localeCompare : string → string → Z.
Hypothesis localeCompare_total :
  ∀ a b, (localeCompare a b <= 0)%Z ∨ (localeCompare b a <= 0)%Z.
Hypothesis localeCompare_trans :
  ∀ a b c, (localeCompare a b <= 0)%Z → (localeCompare b c <= 0)%Z →
           (localeCompare a c <= 0)%Z.

Local Instance compareTags_total :
  Total (sortsBefore (compareTags localeCompare)).
Proof.
  intros a b. unfold sortsBefore, compareTags.
  destruct (isTimeTag a), (isTimeTag b); simpl; try lia;
    apply localeCompare_total.
Qed.

Local Instance compareTags_trans :
  Transitive (sortsBefore (compareTags localeCompare)).
Proof.
  intros a b c. unfold sortsBefore, compareTags.
  destruct (isTimeTag a), (isTimeTag b), (isTimeTag c); simpl; try lia;
    apply localeCompare_trans.
Qed.

Lemma timeTagCount_Permutation (l1 l2 : list Tag) :
  l1 ≡ₚ l2 → timeTagCount l1 = timeTagCount l2.
Proof. intros Hp. unfold timeTagCount. by rewrite Hp. Qed.

(** Among tags that are not time tags the comparator is the collation. *)
Lemma sorted_by_name (l : list Tag) :
  Forall (λ t, isTimeTag t = false) l →
  StronglySorted (sortsBefore (compareTags localeCompare)) l →
  StronglySorted (nameLe localeCompare) l.
Proof.
  intros Hall Hs. induction Hs as [|x l Hs IH Hx]; [constructor|].
  apply Forall_cons in Hall as [Htx Hall].
  constructor; [by apply IH|].
  rewrite Forall_forall in Hx, Hall |- *. intros y Hy.
  specialize (Hx y Hy). specialize (Hall y Hy).
  unfold sortsBefore, compareTags in Hx. rewrite Htx, Hall in Hx. done.
Qed.

(** C7. From a selection with at most one time tag, the sequence that
    [handleSave] hands over is a rearrangement of the selection in which
    a time tag, when there is one, is element 0 and the other elements
    are in non-decreasing order of the locale-aware name comparison. *)
Theorem C7_handleSave_sorted (st : State) :
  exclusive (selectedTags st) →
  handleSave localeCompare st ≡ₚ selectedTags st ∧
  (timeTagCount (selectedTags st) = 0 →
     StronglySorted (nameLe localeCompare) (handleSave localeCompare st)) ∧
  (∀ t, t ∈ selectedTags st → isTimeTag t = true →
     ∃ rest, handleSave localeCompare st = t :: rest ∧
             Forall (λ u, isTimeTag u = false) rest ∧
             StronglySorted (nameLe localeCompare) rest).
Proof.
  intros Hex. unfold handleSave.
  set (R := sortsBefore (compareTags localeCompare)).
  pose proof (sortWith_Permutation (compareTags localeCompare)
                (selectedTags st)) as Hperm.
  pose proof (sortWith_StronglySorted (compareTags localeCompare)
                (selectedTags st)) as Hsorted.
  fold R in Hsorted.
  set (out := sortWith (compareTags localeCompare) (selectedTags st)) in *.
  split; [done|]. split.
  - intros Hzero. apply sorted_by_name; [|done].
    apply timeTagCount_zero. by rewrite (timeTagCount_Permutation _ _ Hperm).
  - intros t Ht Htime. rewrite <-Hperm in Ht.
    assert (Hex' : exclusive out).
    { unfold exclusive. by rewrite (timeTagCount_Permutation _ _ Hperm). }
    destruct out as [|x rest]; [by apply elem_of_nil in Ht|].
    apply StronglySorted_inv in Hsorted as [Hrest Hx].
    assert (Hxt : isTimeTag x = true).
    { apply elem_of_cons in Ht as [->|Ht]; [done|].
      rewrite Forall_forall in Hx. specialize (Hx t Ht).
      unfold R, sortsBefore, compareTags in Hx. rewrite Htime in Hx.
      destruct (isTimeTag x); [done|]. simpl in Hx. lia. }
    destruct (exclusive_split (x :: rest) 0 x Hex' eq_refl Hxt)
      as [_ Hnone]. simpl in Hnone. rewrite drop_0 in Hnone.
    assert (t = x) as ->.
    { apply elem_of_cons in Ht as [->|Ht]; [done|].
      rewrite Forall_forall in Hnone. specialize (Hnone t Ht). congruence. }
    exists rest. split; [done|]. split; [done|]. by apply sorted_by_name.
Qed.

(** Tags with one name, time tags apart, are saved in the order in
    which they were selected. *)
Lemma handleSave_stable (st : State) name flag :
  filter (λ t, tag_name t = name ∧ isTimeTag t = flag)
    (handleSave localeCompare st)
  = filter (λ t, tag_name t = name ∧ isTimeTag t = flag) (selectedTags st).
Proof.
  unfold handleSave. apply sortWith_stable.
  intros a b [Ha Hta] [Hb Htb]. unfold sortsBefore, compareTags.
  rewrite Ha, Hb, Hta, Htb.
  destruct flag; simpl; by destruct (localeCompare_total name name).
Qed.

End save_sorted.

Section code_unit_collation.
Import Selection.

Lemma codeUnitCompare_le a b :
  (codeUnitCompare a b <= 0)%Z ↔ String.le a b.
Proof.
  unfold codeUnitCompare, String.le, String.leb.
  destruct (String.compare a b); simpl; split; intros H; try done; lia.
Qed.

Lemma codeUnitCompare_total a b :
  (codeUnitCompare a b <= 0)%Z ∨ (codeUnitCompare b a <= 0)%Z.
Proof. rewrite !codeUnitCompare_le. apply (total String.le). Qed.

Lemma codeUnitCompare_trans a b c :
  (codeUnitCompare a b <= 0)%Z → (codeUnitCompare b c <= 0)%Z →
  (codeUnitCompare a c <= 0)%Z.
Proof. rewrite !codeUnitCompare_le. apply (transitivity (R := String.le)). Qed.

Lemma C7_handleSave_sorted_witness :
  exclusive (selectedTags Scenarios.unsaved) ∧
  ∃ rest, handleSave codeUnitCompare Scenarios.unsaved
          = Scenarios.time2024 :: rest ∧
          Forall (λ u, isTimeTag u = false) rest ∧
          StronglySorted (nameLe codeUnitCompare) rest.
Proof.
  assert (Hex : exclusive (selectedTags Scenarios.unsaved))
    by (vm_compute; lia).
  split; [exact Hex|].
  apply (C7_handleSave_sorted codeUnitCompare codeUnitCompare_total
           codeUnitCompare_trans Scenarios.unsaved Hex).
  - vm_compute. apply list_elem_of_In. simpl. tauto.
  - reflexivity.
Defined.

(** The scenario of the specification: select "Mom" through group g1,
    add the time tag "2024-06", save. *)
Example save_scenario :
  handleSave codeUnitCompare
    (addTimeTag 2
       (mkState (toggleTag "g1" Scenarios.mom []) "2024-06"))
  = [Scenarios.time2024; Scenarios.momSelected].
Proof. by vm_compute. Qed.

(** Three tags named alike come out as they were selected. *)
Example save_keeps_order_of_equal_names :
  handleSave codeUnitCompare
    (mkState [Runs.same1; Runs.same2; Runs.same3] "")
  = [Runs.same1; Runs.same2; Runs.same3] ∧
  handleSave codeUnitCompare
    (mkState [Runs.same1; Scenarios.dad; Runs.same2; Scenarios.time2024;
              Runs.same3] "")
  = [Scenarios.time2024; Scenarios.dad; Runs.same1; Runs.same2; Runs.same3].
Proof. by vm_compute. Qed.

End code_unit_collation.

(** ** Deleting a catalog tag *)

Section catalog_facts.
Import Catalog.

Lemma deleteTag_selectedTags writeOk groupId tagId (a : App) :
  selectedTags (deleteTag true writeOk groupId tagId a)
  = filter (λ t, tag_id t ≠ tagId) (selectedTags a).
Proof. unfold deleteTag. by destruct writeOk. Qed.

Lemma deleteTag_images confirmed writeOk groupId tagId (a : App) :
  images (deleteTag confirmed writeOk groupId tagId a) = images a ∧
  storedImages (deleteTag confirmed writeOk groupId tagId a) = storedImages a.
Proof. unfold deleteTag. by destruct confirmed, writeOk. Qed.

(** C9 as stated fails: with "Mom" (t1) and "Dad" (t2) of group g1 both
    selected, deleting t1 leaves "Dad", a tag of group g1, selected. *)
Lemma C9_counterexample :
  ¬ (∀ (a : App) (writeOk : bool),
       (∃ t, t ∈ selectedTags a ∧ tag_id t = "t1" ∧
             tag_groupId t = Some "g1") →
       selectsGroup "g1" (selectedTags (deleteTag true writeOk "g1" "t1" a))
       = false ∧
       images (deleteTag true writeOk "g1" "t1" a) = images a).
Proof.
  intros Hclaim.
  destruct (Hclaim Scenarios.bothSelected true) as [Hnone _].
  - exists Scenarios.momSelected. split; [|done].
    apply list_elem_of_In. simpl. tauto.
  - vm_compute in Hnone. discriminate.
Qed.

(** C9, amended. A confirmed [deleteTag] removes from the selection the
    tags whose id is the deleted one and keeps every other selected tag,
    in order, whatever its group; the image collection and its persisted
    copy are left as they were, so saved copies of the tag stay. *)
Theorem C9_deleteTag_drops_id writeOk groupId tagId (a : App) :
  selectedTags (deleteTag true writeOk groupId tagId a)
  = filter (λ t, tag_id t ≠ tagId) (selectedTags a) ∧
  Selection.hasId tagId
    (selectedTags (deleteTag true writeOk groupId tagId a)) = false ∧
  images (deleteTag true writeOk groupId tagId a) = images a ∧
  storedImages (deleteTag true writeOk groupId tagId a) = storedImages a.
Proof.
  rewrite deleteTag_selectedTags.
  split; [done|]. split; [apply hasId_filter_out|].
  apply deleteTag_images.
Qed.

(** The group-wide cascade is what [deleteGroup] does. *)
Lemma deleteGroup_drops_group writeOk groupId (a : App) :
  selectsGroup groupId
    (selectedTags (deleteGroup true writeOk groupId a)) = false.
Proof.
  unfold deleteGroup.
  assert (∀ l : list Tag,
    selectsGroup groupId
      (filter (λ tag, tag_groupId tag ≠ Some groupId) l) = false) as Hl.
  { induction l as [|t l IH]; [done|].
    destruct (decide (tag_groupId t = Some groupId)) as [Heq|Hne].
    - by rewrite filter_cons_False by (intros ?; done).
    - rewrite filter_cons_True by done. simpl.
      by rewrite bool_decide_eq_false_2. }
  destruct writeOk; apply Hl.
Qed.

(** The saved image of the scenario keeps its copy of "Mom" when the
    catalog tag t1 is deleted. *)
Example saved_copy_survives_deleteTag :
  image_tags <$> images (deleteTag true true "g1" "t1" Scenarios.bothSelected)
  = [[Scenarios.momSelected]].
Proof. by vm_compute. Qed.

End catalog_facts.

(** ** Facts about the export pipeline *)

Section pipeline_facts.
Import Pipeline.
Context (E : Env).

(** What one pass through the [try] block does to the loop state. *)
Lemma stageImage_spec i img (s : Loop) :
  let r := Naming.generateUniqueFileName (now E i) (image_tags img)
             (usedNames s) in
  let new := if succeeded E i
             then [mkAsset (tempFileOf E r.1) (image_uri img)] else [] in
  usedNames (stageImage E i img s) = r.2 ∧
  processedCount (stageImage E i img s)
  = processedCount s + (if finished E i then 1 else 0) ∧
  library (device (stageImage E i img s)) = library (device s) ++ new ∧
  batchAssets (stageImage E i img s) = batchAssets s ++ new ∧
  album (device (stageImage E i img s)) = album (device s).
Proof.
  unfold stageImage, finished, succeeded.
  destruct (Naming.generateUniqueFileName _ _ _) as [fileName used].
  destruct (copyOk E i), (createOk E i), (deleteOk E i); simpl;
    rewrite ?lookup_insert_eq; simpl; rewrite ?app_nil_r;
    repeat split; try done; lia.
Qed.

Lemma stageImages_spec imgs :
  ∀ i (s : Loop),
    usedNames (stageImages E i imgs s) = usedAfter E i imgs (usedNames s) ∧
    processedCount (stageImages E i imgs s)
    = processedCount s + completed E i imgs ∧
    library (device (stageImages E i imgs s))
    = library (device s) ++ created E i imgs (usedNames s) ∧
    batchAssets (stageImages E i imgs s)
    = batchAssets s ++ created E i imgs (usedNames s) ∧
    album (device (stageImages E i imgs s)) = album (device s).
Proof.
  induction imgs as [|img rest IH]; intros i s; simpl.
  - rewrite !app_nil_r. repeat split; try done; lia.
  - destruct (IH (S i) (stageImage E i img s)) as (Hu & Hp & Hl & Hb & Ha).
    destruct (stageImage_spec i img s) as (Hu1 & Hp1 & Hl1 & Hb1 & Ha1).
    rewrite Hu, Hp, Hl, Hb, Ha, Hu1, Hp1, Hl1, Hb1, Ha1.
    rewrite <-!app_assoc. repeat split; try done; lia.
Qed.

Lemma usedAfter_app l1 l2 :
  ∀ i (used : gset string),
    usedAfter E i (l1 ++ l2) used
    = usedAfter E (i + length l1) l2 (usedAfter E i l1 used).
Proof.
  induction l1 as [|img l1 IH]; intros i used; simpl.
  - by rewrite Nat.add_0_r.
  - by rewrite IH, Nat.add_succ_r.
Qed.

Lemma created_app l1 l2 :
  ∀ i (used : gset string),
    created E i (l1 ++ l2) used
    = created E i l1 used
      ++ created E (i + length l1) l2 (usedAfter E i l1 used).
Proof.
  induction l1 as [|img l1 IH]; intros i used; simpl.
  - by rewrite Nat.add_0_r.
  - by rewrite IH, <-app_assoc, Nat.add_succ_r.
Qed.

Lemma completed_app l1 l2 :
  ∀ i, completed E i (l1 ++ l2)
       = completed E i l1 + completed E (i + length l1) l2.
Proof.
  induction l1 as [|img l1 IH]; intros i; simpl.
  - by rewrite Nat.add_0_r.
  - rewrite IH, Nat.add_succ_r. simpl. lia.
Qed.

(** The assets created hold the bytes of the images that succeeded. *)
Lemma created_data imgs :
  ∀ i (used : gset string),
    asset_data <$> created E i imgs used
    = image_uri <$> succeededImages E i imgs.
Proof.
  induction imgs as [|img rest IH]; intros i used; simpl; [done|].
  rewrite !fmap_app, IH. by destruct (succeeded E i).
Qed.

(** When no release fails, the counter is the number of assets. *)
Lemma completed_created imgs :
  ∀ i (used : gset string),
    (∀ j, i ≤ j < i + length imgs →
          succeeded E j = true → deleteOk E j = true) →
    completed E i imgs = length (created E i imgs used).
Proof.
  induction imgs as [|img rest IH]; intros i used Hrel; simpl; [done|].
  rewrite length_app, <-(IH (S i)).
  - unfold finished. destruct (succeeded E i) eqn:Hs; simpl; [|done].
    rewrite (Hrel i); [done| |done]. simpl. lia.
  - intros j Hj. apply Hrel. simpl. lia.
Qed.

Lemma ceilDiv_covers n : n ≤ ceilDiv n BATCH_SIZE * BATCH_SIZE.
Proof.
  unfold ceilDiv, BATCH_SIZE.
  pose proof (Nat.div_mod_eq n 10). pose proof (Nat.mod_upper_bound n 10).
  destruct (n mod 10 =? 0) eqn:Hr; [apply Nat.eqb_eq in Hr|]; lia.
Qed.

Lemma ceilDiv_batch_starts n b :
  b < ceilDiv n BATCH_SIZE → b * BATCH_SIZE < n.
Proof.
  unfold ceilDiv, BATCH_SIZE.
  pose proof (Nat.div_mod_eq n 10). pose proof (Nat.mod_upper_bound n 10).
  destruct (n mod 10 =? 0) eqn:Hr; [apply Nat.eqb_eq in Hr|
                                    apply Nat.eqb_neq in Hr]; lia.
Qed.

(** The batches follow one another without gap or overlap. *)
Lemma take_next_batch (images : list ImageItem) b :
  take (S b * BATCH_SIZE) images
  = take (b * BATCH_SIZE) images ++ batchOf images b.
Proof.
  unfold batchOf, slice.
  set (k := b * BATCH_SIZE).
  replace (S b * BATCH_SIZE) with (k + BATCH_SIZE) by (unfold k; lia).
  rewrite <-(take_drop k images) at 1.
  destruct (decide (k ≤ length images)) as [Hk|Hk].
  - rewrite take_app_ge by (rewrite length_take; lia).
    rewrite length_take, Nat.min_l by done.
    f_equal. replace (k + BATCH_SIZE - k) with BATCH_SIZE by lia.
    destruct (decide (k + BATCH_SIZE ≤ length images)).
    + by rewrite Nat.min_l, Nat.add_sub' by done.
    + rewrite Nat.min_r by lia.
      rewrite !take_ge; [done|rewrite length_drop; lia..].
  - rewrite drop_ge by lia. rewrite app_nil_r, take_nil, app_nil_r.
    rewrite !take_ge; [done|rewrite ?length_take; lia..].
Qed.

Lemma attachBatch_spec b (s : Loop) :
  usedNames (attachBatch E b s) = usedNames s ∧
  processedCount (attachBatch E b s) = processedCount s ∧
  library (device (attachBatch E b s)) = library (device s) ∧
  batchAssets (attachBatch E b s) = batchAssets s.
Proof.
  unfold attachBatch.
  destruct (batchAssets s) eqn:Hb; [done|].
  destruct (attachOk E b); simpl; by rewrite ?Hb.
Qed.

(** What one batch does, in terms of the state it starts from. *)
Lemma exportBatch_spec (images : list ImageItem) b (s : Loop) :
  usedNames (exportBatch E images s b)
  = usedAfter E (b * BATCH_SIZE) (batchOf images b) (usedNames s) ∧
  processedCount (exportBatch E images s b)
  = processedCount s + completed E (b * BATCH_SIZE) (batchOf images b) ∧
  library (device (exportBatch E images s b))
  = library (device s)
    ++ created E (b * BATCH_SIZE) (batchOf images b) (usedNames s) ∧
  batchAssets (exportBatch E images s b)
  = created E (b * BATCH_SIZE) (batchOf images b) (usedNames s).
Proof.
  unfold exportBatch. fold (batchOf images b).
  set (s0 := mkLoop (usedNames s) (processedCount s) (device s) []).
  destruct (attachBatch_spec b
              (stageImages E (b * BATCH_SIZE) (batchOf images b) s0))
    as (Hu & Hp & Hl & Hb).
  destruct (stageImages_spec (batchOf images b) (b * BATCH_SIZE) s0)
    as (Hu' & Hp' & Hl' & Hb' & _).
  rewrite Hu, Hp, Hl, Hb, Hu', Hp', Hl', Hb'. done.
Qed.

(** After [b] batches the loop has handled the first [b * BATCH_SIZE]
    images, one after the other. *)
Lemma batches_prefix (images : list ImageItem) (d : Device) b :
  b ≤ ceilDiv (length images) BATCH_SIZE →
  let s := foldl (exportBatch E images) (mkLoop ∅ 0 d []) (seq 0 b) in
  usedNames s = usedAfter E 0 (take (b * BATCH_SIZE) images) ∅ ∧
  processedCount s = completed E 0 (take (b * BATCH_SIZE) images) ∧
  library (device s)
  = library d ++ created E 0 (take (b * BATCH_SIZE) images) ∅.
Proof.
  induction b as [|b IH]; intros Hb; cbv zeta.
  - simpl. by rewrite app_nil_r.
  - rewrite seq_S, foldl_app. cbn [foldl Nat.add].
    destruct IH as (Hu & Hp & Hl); [lia|].
    set (s := foldl (exportBatch E images) (mkLoop ∅ 0 d []) (seq 0 b)) in *.
    destruct (exportBatch_spec images b s) as (Hu' & Hp' & Hl' & _).
    assert (Hlen : length (take (b * BATCH_SIZE) images) = b * BATCH_SIZE).
    { rewrite length_take. apply Nat.min_l.
      pose proof (ceilDiv_batch_starts (length images) b). lia. }
    rewrite Hu', Hp', Hl', Hu, Hp, Hl.
    rewrite take_next_batch, usedAfter_app, completed_app, created_app.
    rewrite Hlen, <-app_assoc. done.
Qed.

Lemma runBatches_spec (images : list ImageItem) (d : Device) :
  usedNames (runBatches E images d) = usedAfter E 0 images ∅ ∧
  processedCount (runBatches E images d) = completed E 0 images ∧
  library (device (runBatches E images d))
  = library d ++ created E 0 images ∅.
Proof.
  unfold runBatches.
  destruct (batches_prefix images d (ceilDiv (length images) BATCH_SIZE))
    as (Hu & Hp & Hl); [done|].
  rewrite take_ge in Hu, Hp, Hl by apply ceilDiv_covers. done.
Qed.

Lemma exportImages_reaches_loop (images : list ImageItem) (d d0 : Device) :
  images ≠ [] → permission E = Some true → albumLookupOk E = true →
  resolveAlbum E images d = inl d0 →
  exportImages E images d
  = (Exported (processedCount (runBatches E images d0)) (length images),
     device (runBatches E images d0)).
Proof.
  intros Hne Hperm Hlookup Hres. unfold exportImages.
  destruct images as [|img rest]; [done|]. simpl length. simpl Nat.eqb.
  by rewrite Hperm, Hlookup, Hres.
Qed.

Lemma completed_le imgs : ∀ i, completed E i imgs ≤ length imgs.
Proof.
  induction imgs as [|img rest IH]; intros i; simpl; [done|].
  specialize (IH (S i)). destruct (finished E i); lia.
Qed.

(** In an export that reaches the batch loop, no failure of staging or
    asset creation for an image stops the run: the outcome is the pair of
    the count of images that went through and the number of images; the
    library gains the assets of exactly the images whose staging and
    creation succeeded, in order; the asset list of each batch holds
    exactly the assets of those of its images that succeeded; and, when
    no release of a temporary file fails, the count is the number of
    assets created. *)
Lemma item_failures_absorbed (images : list ImageItem) (d d0 : Device) :
  images ≠ [] → permission E = Some true → albumLookupOk E = true →
  resolveAlbum E images d = inl d0 →
  (exportImages E images d).1
  = Exported (completed E 0 images) (length images) ∧
  library (exportImages E images d).2
  = library d0 ++ created E 0 images ∅ ∧
  asset_data <$> created E 0 images ∅
  = image_uri <$> succeededImages E 0 images ∧
  (∀ b, b < ceilDiv (length images) BATCH_SIZE →
     batchAssets
       (foldl (exportBatch E images) (mkLoop ∅ 0 d0 []) (seq 0 (S b)))
     = created E (b * BATCH_SIZE) (batchOf images b)
         (usedAfter E 0 (take (b * BATCH_SIZE) images) ∅)) ∧
  ((∀ i, i < length images → succeeded E i = true → deleteOk E i = true) →
     completed E 0 images = length (created E 0 images ∅)).
Proof.
  intros Hne Hperm Hlookup Hres.
  rewrite (exportImages_reaches_loop images d d0) by done. cbn [fst snd].
  destruct (runBatches_spec images d0) as (_ & Hp & Hl).
  rewrite Hp, Hl. split; [done|]. split; [done|].
  split; [apply created_data|]. split.
  - intros b Hb. rewrite seq_S, foldl_app. cbn [foldl Nat.add].
    destruct (batches_prefix images d0 b) as (Hu & _); [lia|].
    destruct (exportBatch_spec images b
                (foldl (exportBatch E images) (mkLoop ∅ 0 d0 []) (seq 0 b)))
      as (_ & _ & _ & Hb').
    by rewrite Hb', Hu.
  - intros Hrel. apply completed_created. intros j Hj. apply Hrel. lia.
Qed.

(** A release that fails after the asset was created is not counted,
    although the asset is in the library and in the batch. *)
Lemma release_failure_not_counted img (s : Loop) i :
  succeeded E i = true → deleteOk E i = false →
  processedCount (stageImage E i img s) = processedCount s ∧
  length (batchAssets (stageImage E i img s)) = S (length (batchAssets s)).
Proof.
  intros Hs Hd.
  destruct (stageImage_spec i img s) as (_ & Hp & _ & Hb & _).
  rewrite Hp, Hb. unfold finished. rewrite Hs, Hd, length_app. simpl. lia.
Qed.

(** A creation that is rejected leaves the staged file in the cache. *)
Lemma rejected_creation_leaves_file img (s : Loop) i :
  copyOk E i = true → createOk E i = false →
  cache (device (stageImage E i img s))
    !! tempFileOf E
         (Naming.generateUniqueFileName (now E i) (image_tags img)
            (usedNames s)).1
  = Some (image_uri img).
Proof.
  intros Hc Ha. unfold stageImage.
  destruct (Naming.generateUniqueFileName _ _ _) as [fileName used].
  rewrite Hc, Ha. simpl. apply lookup_insert_eq.
Qed.

(** ... and one that resolves, followed by the release, removes it. *)
Lemma finished_image_releases_file img (s : Loop) i :
  finished E i = true →
  cache (device (stageImage E i img s))
    !! tempFileOf E
         (Naming.generateUniqueFileName (now E i) (image_tags img)
            (usedNames s)).1
  = None.
Proof.
  unfold finished, succeeded.
  intros [[Hc Ha]%andb_true_iff Hd]%andb_true_iff. unfold stageImage.
  destruct (Naming.generateUniqueFileName _ _ _) as [fileName used].
  rewrite Hc, Ha. simpl. rewrite lookup_insert_eq, Hd. simpl.
  apply lookup_delete_eq.
Qed.

Lemma all_true_split (a b c e : bool) :
  a && b && c && e = true → a = true ∧ b = true ∧ c = true ∧ e = true.
Proof. destruct a, b, c, e; simpl; auto. Qed.

Lemma createAlbum_ok img0 rest (d : Device) :
  seedCopyOk E = true → seedCreateOk E = true →
  albumCreateOk E = true → seedDeleteOk E = true →
  createAlbum E (img0 :: rest) d
  = inl (mkDevice
           (delete (seedFile E) (<[seedFile E := image_uri img0]> (cache d)))
           (library d ++ [mkAsset (seedFile E) (image_uri img0)])
           (Some [mkAsset (seedFile E) (image_uri img0)])).
Proof.
  intros Hc Ha Hal Hd. unfold createAlbum. rewrite Hc, Ha. simpl.
  rewrite lookup_insert_eq, Hal, Hd. done.
Qed.

(** C4, amended. When the album does not exist, it is set up from the
    first image of the sequence: if every call of the set-up resolves,
    the album is created with the asset of that image as its only
    member; if staging that image, creating its asset or creating the
    album fails, the export ends with the album-creation error, the
    album is still missing and no image has been exported. *)
Theorem C4_album_seeded_by_first_image img0 rest (d : Device) :
  album d = None → permission E = Some true → albumLookupOk E = true →
  (seedCopyOk E && seedCreateOk E && albumCreateOk E && seedDeleteOk E = true →
     ∃ d0, resolveAlbum E (img0 :: rest) d = inl d0 ∧
           album d0 = Some [mkAsset (seedFile E) (image_uri img0)] ∧
           library d0
           = library d ++ [mkAsset (seedFile E) (image_uri img0)]) ∧
  (seedCopyOk E && seedCreateOk E && albumCreateOk E = false →
     (exportImages E (img0 :: rest) d).1 = AlbumCreationFailed ∧
     album (exportImages E (img0 :: rest) d).2 = None ∧
     library (exportImages E (img0 :: rest) d).2
     = library d
       ++ (if seedCopyOk E && seedCreateOk E
           then [mkAsset (seedFile E) (image_uri img0)] else [])).
Proof.
  intros Halbum Hperm Hlookup. split.
  - intros (Hc & Ha & Hal & Hd)%all_true_split.
    eexists. unfold resolveAlbum. rewrite Halbum.
    rewrite createAlbum_ok by done. simpl. done.
  - intros Hfail. unfold exportImages, resolveAlbum, createAlbum.
    simpl length. simpl Nat.eqb. rewrite Hperm, Hlookup, Halbum.
    destruct (seedCopyOk E); simpl in *; [|by rewrite app_nil_r].
    rewrite lookup_insert_eq.
    destruct (seedCreateOk E); simpl in *; [|by rewrite app_nil_r].
    rewrite Hfail. done.
Qed.

(** C10. When the album does not exist and the set-up and the first
    image's own staging and creation succeed, the library gains two
    assets with the bytes of the first image: the seed, created from the
    fixed file album_init.jpg, and then the image's asset under the name
    generated from the empty used-name set.  The count reported only
    counts the images of the batches, so it never exceeds their number. *)
Theorem C10_first_image_added_twice img0 rest (d : Device) :
  album d = None → permission E = Some true → albumLookupOk E = true →
  seedCopyOk E = true → seedCreateOk E = true →
  albumCreateOk E = true → seedDeleteOk E = true →
  succeeded E 0 = true →
  (exportImages E (img0 :: rest) d).1
  = Exported (completed E 0 (img0 :: rest)) (length (img0 :: rest)) ∧
  completed E 0 (img0 :: rest) ≤ length (img0 :: rest) ∧
  seedFile E = cacheDirectory E +:+ "album_init.jpg" ∧
  library (exportImages E (img0 :: rest) d).2
  = library d
    ++ mkAsset (seedFile E) (image_uri img0)
    :: mkAsset
         (tempFileOf E
            (Naming.generateUniqueFileName (now E 0) (image_tags img0) ∅).1)
         (image_uri img0)
    :: created E 1 rest
         (Naming.generateUniqueFileName (now E 0) (image_tags img0) ∅).2.
Proof.
  intros Halbum Hperm Hlookup Hc Ha Hal Hd Hs.
  assert (Hres : resolveAlbum E (img0 :: rest) d
                 = inl (mkDevice
                          (delete (seedFile E)
                             (<[seedFile E := image_uri img0]> (cache d)))
                          (library d ++ [mkAsset (seedFile E) (image_uri img0)])
                          (Some [mkAsset (seedFile E) (image_uri img0)]))).
  { unfold resolveAlbum. rewrite Halbum. by apply createAlbum_ok. }
  assert (Hne : img0 :: rest ≠ []) by done.
  rewrite (exportImages_reaches_loop _ d _ Hne Hperm Hlookup Hres).
  cbn [fst snd].
  destruct (runBatches_spec (img0 :: rest)
              (mkDevice
                 (delete (seedFile E)
                    (<[seedFile E := image_uri img0]> (cache d)))
                 (library d ++ [mkAsset (seedFile E) (image_uri img0)])
                 (Some [mkAsset (seedFile E) (image_uri img0)])))
    as (_ & Hp & Hl).
  rewrite Hp, Hl. split; [done|]. split; [apply completed_le|].
  split; [done|].
  cbn [library created]. rewrite Hs. rewrite <-app_assoc. done.
Qed.

End pipeline_facts.

(** ** The pipeline on concrete runs *)

Section pipeline_runs.
Import Pipeline.

Lemma item_failures_absorbed_creation_rejected :
  (exportImages Scenarios.creationRejects
     [Scenarios.photo; Scenarios.photo2; Scenarios.photo3]
     Scenarios.deviceWithAlbum).1 = Exported 2 3 ∧
  library (exportImages Scenarios.creationRejects
             [Scenarios.photo; Scenarios.photo2; Scenarios.photo3]
             Scenarios.deviceWithAlbum).2
  = [mkAsset "cache/Mom_1.jpg" "file:///photo2.jpg";
     mkAsset "cache/Mom_2.jpg" "file:///photo3.jpg"] ∧
  completed Scenarios.creationRejects 0
    [Scenarios.photo; Scenarios.photo2; Scenarios.photo3]
  = length (created Scenarios.creationRejects 0
              [Scenarios.photo; Scenarios.photo2; Scenarios.photo3] ∅).
Proof.
  destruct (item_failures_absorbed Scenarios.creationRejects
              [Scenarios.photo; Scenarios.photo2; Scenarios.photo3]
              Scenarios.deviceWithAlbum Scenarios.deviceWithAlbum)
    as (Hout & Hlib & _ & _ & Hcount);
    [discriminate|reflexivity|reflexivity|reflexivity|].
  split; [|split].
  - rewrite Hout. reflexivity.
  - rewrite Hlib. reflexivity.
  - apply Hcount. intros i _ _. reflexivity.
Defined.

(** C5 (code at the failing input). Two images tagged "Mom"; for the
    first one the copy and the asset creation resolve and the release of
    the temporary file is rejected.  Both assets are created and attached
    to the album, yet the export reports 1 of 2: the counter is
    incremented after [deleteAsync] inside the [try] block, so the
    rejected release takes the created asset out of the count. *)
Theorem C5_created_asset_not_counted :
  (exportImages Runs.releaseRejects [Scenarios.photo; Scenarios.photo2]
     Scenarios.deviceWithAlbum).1 = Exported 1 2 ∧
  library (exportImages Runs.releaseRejects
             [Scenarios.photo; Scenarios.photo2]
             Scenarios.deviceWithAlbum).2
  = [mkAsset "cache/Mom.jpg" "file:///photo1.jpg";
     mkAsset "cache/Mom_1.jpg" "file:///photo2.jpg"] ∧
  album (exportImages Runs.releaseRejects
           [Scenarios.photo; Scenarios.photo2]
           Scenarios.deviceWithAlbum).2
  = Some [mkAsset "cache/Mom.jpg" "file:///photo1.jpg";
          mkAsset "cache/Mom_1.jpg" "file:///photo2.jpg"] ∧
  length (created Runs.releaseRejects 0
            [Scenarios.photo; Scenarios.photo2] ∅) = 2 ∧
  (exportImages Scenarios.allResolve [Scenarios.photo; Scenarios.photo2]
     Scenarios.deviceWithAlbum).1 = Exported 2 2.
Proof. by vm_compute. Qed.

(** C3 (code at the failing input). One image, tagged "Mom", is copied
    to the cache; creating the asset is rejected.  The export ends with
    0 of 1 exported and the staged file is still in the cache: the
    [deleteAsync] that follows [createAssetAsync] in the [try] block is
    skipped when the [catch] takes over.  When the asset is created, the
    same file is gone after the export. *)
Theorem C3_staged_file_left_after_rejected_creation :
  (exportImages Scenarios.creationRejects [Scenarios.photo]
     Scenarios.deviceWithAlbum).1 = Exported 0 1 ∧
  cache (exportImages Scenarios.creationRejects [Scenarios.photo]
           Scenarios.deviceWithAlbum).2 !! "cache/Mom.jpg"
  = Some "file:///photo1.jpg" ∧
  cache (exportImages Scenarios.allResolve [Scenarios.photo]
           Scenarios.deviceWithAlbum).2 !! "cache/Mom.jpg"
  = None.
Proof. by vm_compute. Qed.

(** C4 as stated fails: the first image cannot be copied, the second
    one can, and the export still ends with the album-creation error. *)
Lemma C4_counterexample :
  ¬ (∀ (E : Env) (images : list ImageItem) (d : Device),
       images ≠ [] → permission E = Some true → albumLookupOk E = true →
       album d = None →
       (exportImages E images d).1 = AlbumCreationFailed →
       ∀ i, i < length images → copyOk E i = false).
Proof.
  intros Hclaim.
  specialize (Hclaim Scenarios.firstUnreadable
                [Scenarios.photo; Scenarios.photo2] Scenarios.freshDevice).
  assert (copyOk Scenarios.firstUnreadable 1 = false) as Habs.
  { apply Hclaim; [discriminate|reflexivity..|simpl; lia]. }
  discriminate Habs.
Qed.

Lemma C4_album_seeded_by_first_image_witness :
  (∃ d0, resolveAlbum Scenarios.allResolve
           [Scenarios.photo; Scenarios.photo2] Scenarios.freshDevice = inl d0 ∧
         album d0 = Some [mkAsset "cache/album_init.jpg" "file:///photo1.jpg"] ∧
         library d0 = [mkAsset "cache/album_init.jpg" "file:///photo1.jpg"]) ∧
  (exportImages Scenarios.firstUnreadable
     [Scenarios.photo; Scenarios.photo2] Scenarios.freshDevice).1
  = AlbumCreationFailed.
Proof.
  split.
  - apply (C4_album_seeded_by_first_image Scenarios.allResolve
             Scenarios.photo [Scenarios.photo2] Scenarios.freshDevice);
      reflexivity.
  - apply (C4_album_seeded_by_first_image Scenarios.firstUnreadable
             Scenarios.photo [Scenarios.photo2] Scenarios.freshDevice);
      reflexivity.
Defined.

Lemma C10_first_image_added_twice_witness :
  (exportImages Scenarios.allResolve [Scenarios.photo; Scenarios.photo2]
     Scenarios.freshDevice).1 = Exported 2 2 ∧
  library (exportImages Scenarios.allResolve
             [Scenarios.photo; Scenarios.photo2] Scenarios.freshDevice).2
  = [mkAsset "cache/album_init.jpg" "file:///photo1.jpg";
     mkAsset "cache/Mom.jpg" "file:///photo1.jpg";
     mkAsset "cache/Mom_1.jpg" "file:///photo2.jpg"].
Proof.
  destruct (C10_first_image_added_twice Scenarios.allResolve
              Scenarios.photo [Scenarios.photo2] Scenarios.freshDevice)
    as (Hout & _ & _ & Hlib); [reflexivity..|].
  split.
  - rewrite Hout. reflexivity.
  - rewrite Hlib. reflexivity.
Defined.

(** Three images tagged "Mom" leave the export as Mom, Mom_1, Mom_2. *)
Example export_three_moms :
  asset_file <$>
    library (exportImages Scenarios.allResolve
               [Scenarios.photo; Scenarios.photo2; Scenarios.photo3]
               Scenarios.deviceWithAlbum).2
  = ["cache/Mom.jpg"; "cache/Mom_1.jpg"; "cache/Mom_2.jpg"].
Proof. by vm_compute. Qed.

(** Nothing to export: no permission request, no album, no change. *)
Example export_nothing (E : Env) (d : Device) :
  exportImages E [] d = (NothingToExport, d).
Proof. done. Qed.

End pipeline_runs.

(** * Further properties of the code *)

(** ** Batches and invariants of the export loop *)

Section pipeline_more.
Import Pipeline.
Context (E : Env).

Lemma concat_batches (images : list ImageItem) b :
  concat (batchOf images <$> seq 0 b) = take (b * BATCH_SIZE) images.
Proof.
  induction b as [|b IH]; [done|].
  rewrite seq_S, fmap_app, concat_app, IH, take_next_batch.
  f_equal. simpl. apply app_nil_r.
Qed.

Lemma length_batchOf (images : list ImageItem) b :
  length (batchOf images b)
  = (b * BATCH_SIZE + BATCH_SIZE) `min` length images - b * BATCH_SIZE.
Proof. unfold batchOf, slice. rewrite length_take, length_drop. lia. Qed.

(** X1. The batches of the loop are consecutive slices that together
    give back the image sequence; every batch has between one and
    [BATCH_SIZE] images. *)
Theorem batches_partition (images : list ImageItem) :
  concat (batchOf images <$> seq 0 (ceilDiv (length images) BATCH_SIZE))
  = images ∧
  Forall (λ b, 1 ≤ length (batchOf images b) ≤ BATCH_SIZE)
    (seq 0 (ceilDiv (length images) BATCH_SIZE)).
Proof.
  split.
  - rewrite concat_batches. apply take_ge, ceilDiv_covers.
  - apply Forall_forall. intros b Hb. apply elem_of_seq in Hb.
    rewrite length_batchOf.
    pose proof (ceilDiv_batch_starts (length images) b).
    unfold BATCH_SIZE in *. lia.
Qed.

(** A property of the loop state that every step keeps holds at the end
    of the batch loop. *)
Lemma stageImages_invariant (P : Loop → Prop) n :
  (∀ i img s, i < n → P s → P (stageImage E i img s)) →
  ∀ imgs i s, i + length imgs ≤ n → P s → P (stageImages E i imgs s).
Proof.
  intros Hstep imgs. induction imgs as [|img rest IH]; intros i s Hi Hs.
  - done.
  - simpl in *. apply IH; [lia|]. apply Hstep; [lia|done].
Qed.

Lemma runBatches_invariant (P : Loop → Prop) (images : list ImageItem)
    (d : Device) :
  P (mkLoop ∅ 0 d []) →
  (∀ i img s, i < length images → P s → P (stageImage E i img s)) →
  (∀ b s, P s → P (attachBatch E b s)) →
  (∀ s, P s → P (mkLoop (usedNames s) (processedCount s) (device s) [])) →
  P (runBatches E images d).
Proof.
  intros Hinit Hstage Hattach Hreset. unfold runBatches.
  assert (∀ l s, Forall (λ b, b < ceilDiv (length images) BATCH_SIZE) l →
                 P s → P (foldl (exportBatch E images) s l)) as Hfold.
  { induction l as [|b l IH]; intros s Hl Hs; [done|].
    apply Forall_cons in Hl as [Hb Hl]. simpl. apply IH; [done|].
    unfold exportBatch. apply Hattach. fold (batchOf images b).
    apply (stageImages_invariant P (length images)); [done| |by apply Hreset].
    rewrite length_batchOf.
    pose proof (ceilDiv_batch_starts (length images) b).
    unfold BATCH_SIZE in *. lia. }
  apply Hfold; [|done].
  apply Forall_forall. intros b Hb. apply elem_of_seq in Hb. lia.
Qed.

Lemma createAlbum_library (images : list ImageItem) (d : Device) :
  library d `prefix_of`
    library (match createAlbum E images d with inl d' | inr d' => d' end).
Proof.
  unfold createAlbum. destruct images as [|img0 rest]; [done|].
  destruct (seedCopyOk E); [|done]. simpl. rewrite lookup_insert_eq.
  destruct (seedCreateOk E); [|done].
  destruct (albumCreateOk E); [|by apply prefix_app_r].
  destruct (seedDeleteOk E); by apply prefix_app_r.
Qed.

Lemma resolveAlbum_library (images : list ImageItem) (d : Device) :
  library d `prefix_of`
    library (match resolveAlbum E images d with inl d' | inr d' => d' end).
Proof.
  unfold resolveAlbum. destruct (album d); [done|]. apply createAlbum_library.
Qed.

(** X2. Whatever the calls answer, an export only adds to the photo
    library: the assets that were there are still there, in the same
    order, before anything the export created. *)
Theorem export_only_adds_assets (images : list ImageItem) (d : Device) :
  library d `prefix_of` library (exportImages E images d).2.
Proof.
  unfold exportImages.
  destruct (length images =? 0); [done|].
  destruct (permission E) as [[|]|]; [|done..].
  destruct (albumLookupOk E); [|done].
  pose proof (resolveAlbum_library images d) as Hres.
  destruct (resolveAlbum E images d) as [d0|d0]; [|done]. simpl.
  destruct (runBatches_spec E images d0) as (_ & _ & ->).
  etrans; [exact Hres|]. by apply prefix_app_r.
Qed.

Lemma completed_all imgs :
  ∀ i, completed E i imgs = length imgs ↔
       ∀ j, i ≤ j < i + length imgs → finished E j = true.
Proof.
  induction imgs as [|img rest IH]; intros i; simpl.
  - split; [intros _ j Hj; lia|done].
  - pose proof (completed_le E rest (S i)) as Hle.
    destruct (finished E i) eqn:Hf.
    + split.
      * intros Heq j Hj. destruct (decide (j = i)) as [->|]; [done|].
        apply (IH (S i)); lia.
      * intros Hall. f_equal. apply IH. intros j Hj. apply Hall. lia.
    + split; [lia|]. intros Hall. rewrite Hall in Hf by lia. done.
Qed.

(** X3. In an export that reaches the batch loop, the count reported
    equals the number of images exactly when, for every image, copying,
    creating the asset and releasing the file all resolved. *)
Theorem export_complete_iff (images : list ImageItem) (d d0 : Device) :
  images ≠ [] → permission E = Some true → albumLookupOk E = true →
  resolveAlbum E images d = inl d0 →
  (exportImages E images d).1 = Exported (length images) (length images) ↔
  ∀ i, i < length images → finished E i = true.
Proof.
  intros Hne Hperm Hlookup Hres.
  rewrite (exportImages_reaches_loop E images d d0) by done. cbn [fst].
  destruct (runBatches_spec E images d0) as (_ & -> & _).
  split.
  - intros Heq i Hi. injection Heq as Hc.
    apply (proj1 (completed_all images 0) Hc). lia.
  - intros Hall. f_equal. apply (completed_all images 0).
    intros j Hj. apply Hall. lia.
Qed.

End pipeline_more.

(** ** The album, the file names and the cache after an export *)

Section pipeline_album.
Import Pipeline.
Context (E : Env).

Lemma attachBatch_album b (s : Loop) m :
  album (device s) = Some m →
  album (device (attachBatch E b s))
  = Some (m ++ (if attachOk E b then batchAssets s else [])).
Proof.
  intros Hm. unfold attachBatch.
  destruct (batchAssets s) eqn:Hb.
  - rewrite Hm. destruct (attachOk E b); by rewrite app_nil_r.
  - destruct (attachOk E b); simpl; rewrite Hm; simpl;
      by rewrite ?Hb, ?app_nil_r.
Qed.

Lemma exportBatch_album (images : list ImageItem) b (s : Loop) m :
  album (device s) = Some m →
  album (device (exportBatch E images s b))
  = Some (m ++ (if attachOk E b
                then created E (b * BATCH_SIZE) (batchOf images b)
                       (usedNames s)
                else [])).
Proof.
  intros Hm. unfold exportBatch. fold (batchOf images b).
  set (s0 := mkLoop (usedNames s) (processedCount s) (device s) []).
  destruct (stageImages_spec E (batchOf images b) (b * BATCH_SIZE) s0)
    as (_ & _ & _ & Hb & Ha).
  rewrite (attachBatch_album b _ m) by (by rewrite Ha).
  by rewrite Hb.
Qed.

Lemma batches_album (images : list ImageItem) (d : Device) m b :
  b ≤ ceilDiv (length images) BATCH_SIZE →
  album d = Some m →
  album (device (foldl (exportBatch E images) (mkLoop ∅ 0 d []) (seq 0 b)))
  = Some (m ++ Runs.attached E images b).
Proof.
  intros Hb Hm. induction b as [|b IH].
  - simpl. by rewrite app_nil_r.
  - rewrite seq_S, foldl_app. cbn [foldl Nat.add].
    destruct (batches_prefix E images d b) as (Hu & _); [lia|].
    rewrite (exportBatch_album images b _ (m ++ Runs.attached E images b))
      by (apply IH; lia).
    rewrite Hu, <-app_assoc. done.
Qed.

Lemma take_batches_length (images : list ImageItem) b :
  b ≤ ceilDiv (length images) BATCH_SIZE →
  b = 0 ∨ length (take ((b - 1) * BATCH_SIZE) images) = (b - 1) * BATCH_SIZE.
Proof.
  intros Hb. destruct b as [|b]; [by left|right].
  replace (S b - 1) with b by lia.
  rewrite length_take. apply Nat.min_l.
  pose proof (ceilDiv_batch_starts (length images) b). lia.
Qed.

Lemma attached_created (images : list ImageItem) b :
  b ≤ ceilDiv (length images) BATCH_SIZE →
  Runs.attached E images b
    `sublist_of` created E 0 (take (b * BATCH_SIZE) images) ∅ ∧
  ((∀ j, attachOk E j = true) →
   Runs.attached E images b = created E 0 (take (b * BATCH_SIZE) images) ∅).
Proof.
  induction b as [|b IH]; intros Hb; [done|].
  destruct IH as [Hsub Hall]; [lia|].
  destruct (take_batches_length images (S b) Hb) as [|Hlen]; [lia|].
  replace (S b - 1) with b in Hlen by lia.
  rewrite take_next_batch, created_app, Hlen. simpl. split.
  - apply sublist_app; [done|].
    destruct (attachOk E b); [done|apply sublist_nil_l].
  - intros Hok. by rewrite (Hall Hok), Hok.
Qed.

Lemma createAlbum_inl (images : list ImageItem) (d d0 : Device) :
  createAlbum E images d = inl d0 →
  ∃ uri, d0 = mkDevice
                (delete (seedFile E) (<[seedFile E := uri]> (cache d)))
                (library d ++ [mkAsset (seedFile E) uri])
                (Some [mkAsset (seedFile E) uri]).
Proof.
  unfold createAlbum. destruct images as [|img0 rest]; [done|].
  destruct (seedCopyOk E); [|done]. simpl. rewrite lookup_insert_eq.
  destruct (seedCreateOk E); [|done].
  destruct (albumCreateOk E); [|done].
  destruct (seedDeleteOk E); [|done].
  intros Heq. injection Heq as <-. by exists (image_uri img0).
Qed.

Lemma dom_delete_insert (m : gmap string string) k v :
  dom (delete k (<[k := v]> m)) ⊆ dom m.
Proof.
  rewrite dom_delete_L, dom_insert_L. intros x Hx.
  apply elem_of_difference in Hx as [Hx Hk].
  apply elem_of_union in Hx as [Hx|Hx]; done.
Qed.

Lemma resolveAlbum_inl (images : list ImageItem) (d d0 : Device) :
  resolveAlbum E images d = inl d0 →
  (∃ m, album d0 = Some m) ∧ dom (cache d0) ⊆ dom (cache d).
Proof.
  unfold resolveAlbum. destruct (album d) as [m|] eqn:Hm.
  - intros Heq. injection Heq as <-. split; [by exists m|done].
  - intros (uri & ->)%createAlbum_inl. simpl. split; [by eexists|].
    apply dom_delete_insert.
Qed.

(** X4. In an export that reaches the batch loop, the album ends with
    its earlier members followed by the assets of the batches whose attach
    call resolved.  These are assets created in this export, in creation
    order; when every attach call resolves they are all of them. *)
Theorem export_album_members (images : list ImageItem) (d d0 : Device) :
  images ≠ [] → permission E = Some true → albumLookupOk E = true →
  resolveAlbum E images d = inl d0 →
  ∃ m, album d0 = Some m ∧
       album (exportImages E images d).2
       = Some (m ++ Runs.attached E images
                      (ceilDiv (length images) BATCH_SIZE)) ∧
       Runs.attached E images (ceilDiv (length images) BATCH_SIZE)
         `sublist_of` created E 0 images ∅ ∧
       ((∀ b, attachOk E b = true) →
        Runs.attached E images (ceilDiv (length images) BATCH_SIZE)
        = created E 0 images ∅).
Proof.
  intros Hne Hperm Hlookup Hres.
  destruct (resolveAlbum_inl images d d0 Hres) as [[m Hm] _].
  exists m. split; [done|].
  rewrite (exportImages_reaches_loop E images d d0) by done. cbn [snd].
  unfold runBatches. rewrite (batches_album images d0 m) by done.
  split; [done|].
  destruct (attached_created images (ceilDiv (length images) BATCH_SIZE))
    as [Hsub Hall]; [done|].
  rewrite take_ge in Hsub, Hall by apply ceilDiv_covers. done.
Qed.

Lemma append_inj_r (t s1 s2 : string) : s1 +:+ t = s2 +:+ t → s1 = s2.
Proof.
  revert s2. induction s1 as [|a s1 IH]; intros [|b s2] Heq.
  - done.
  - apply (f_equal String.length) in Heq.
    rewrite !length_append in Heq. simpl in Heq. lia.
  - apply (f_equal String.length) in Heq.
    rewrite !length_append in Heq. simpl in Heq. lia.
  - change (String a (s1 +:+ t) = String b (s2 +:+ t)) in Heq.
    injection Heq as -> Heq. f_equal. by apply IH.
Qed.

Global Instance tempFileOf_inj : Inj (=) (=) (tempFileOf E).
Proof.
  intros n1 n2 Heq. unfold tempFileOf in Heq.
  apply (inj (String.app (cacheDirectory E))) in Heq.
  by apply append_inj_r in Heq.
Qed.

(** Names given to images with tags are new and differ from one another. *)
Lemma names_fresh imgs :
  ∀ i (used : gset string),
    Forall (λ img, image_tags img ≠ []) imgs →
    NoDup (Runs.names E i imgs used) ∧
    Forall (λ n, n ∉ used) (Runs.names E i imgs used).
Proof.
  induction imgs as [|img rest IH]; intros i used Htagged; simpl.
  - split; constructor.
  - apply Forall_cons in Htagged as [Himg Hrest].
    destruct (generateUniqueFileName_tagged (now E i) (image_tags img)
                used Himg) as (m & _ & Hgen & _ & Hfree & _).
    rewrite Hgen. simpl.
    destruct (IH (S i) ({[Naming.candidate
                            (Naming.baseFileNameOf (image_tags img)) m]}
                        ∪ used) Hrest) as [Hnodup Hnew].
    rewrite Forall_forall in Hnew. split.
    + constructor; [|done]. intros Hin. apply Hnew in Hin.
      apply Hin, elem_of_union_l. by apply elem_of_singleton.
    + constructor; [done|]. apply Forall_forall. intros n Hn.
      apply Hnew in Hn. intros Hu. by apply Hn, elem_of_union_r.
Qed.

Lemma created_files imgs :
  ∀ i (used : gset string),
    asset_file <$> created E i imgs used
      `sublist_of` tempFileOf E <$> Runs.names E i imgs used.
Proof.
  induction imgs as [|img rest IH]; intros i used; simpl; [done|].
  rewrite fmap_app. destruct (succeeded E i); simpl.
  - apply sublist_skip, IH.
  - apply sublist_cons, IH.
Qed.

(** X5. When every image has tags, the assets that the batch loop of
    an export creates come from files with pairwise different names.  If
    the album was there, they are all that the export adds to the library;
    if it was not, the seed asset of the album, made from the fixed file
    album_init.jpg, comes before them and is not among them. *)
Theorem export_file_names_distinct (images : list ImageItem)
    (d d0 : Device) :
  images ≠ [] → permission E = Some true → albumLookupOk E = true →
  resolveAlbum E images d = inl d0 →
  Forall (λ img, image_tags img ≠ []) images →
  ∃ seed new,
    library (exportImages E images d).2 = library d ++ seed ++ new ∧
    (album d ≠ None → seed = []) ∧
    (album d = None → ∃ uri, seed = [mkAsset (seedFile E) uri]) ∧
    new = created E 0 images ∅ ∧
    NoDup (asset_file <$> new).
Proof.
  intros Hne Hperm Hlookup Hres Htagged.
  assert (Hnodup : NoDup (asset_file <$> created E 0 images ∅)).
  { eapply sublist_NoDup; [|apply created_files].
    apply NoDup_fmap_2; [apply _|]. by apply names_fresh. }
  rewrite (exportImages_reaches_loop E images d d0) by done. cbn [snd].
  destruct (runBatches_spec E images d0) as (_ & _ & ->).
  unfold resolveAlbum in Hres. destruct (album d) as [m|] eqn:Hm.
  - injection Hres as <-. exists [], (created E 0 images ∅).
    split; [done|]. split; [done|]. split; [intros Hnone; discriminate|].
    by split.
  - apply createAlbum_inl in Hres as (uri & ->). simpl.
    exists [mkAsset (seedFile E) uri], (created E 0 images ∅).
    rewrite <-app_assoc.
    split; [done|]. split; [intros Hsome; by destruct Hsome|].
    split; [intros _; by exists uri|]. by split.
Qed.

(** X6. When, for every image that could be copied, the asset was
    created and the file released, an export that reaches the batch loop
    leaves no file in the cache that was not there before. *)
Theorem export_leaves_no_file (images : list ImageItem) (d d0 : Device) :
  images ≠ [] → permission E = Some true → albumLookupOk E = true →
  resolveAlbum E images d = inl d0 →
  (∀ i, i < length images → copyOk E i = true →
        createOk E i = true ∧ deleteOk E i = true) →
  dom (cache (exportImages E images d).2) ⊆ dom (cache d).
Proof.
  intros Hne Hperm Hlookup Hres Hok.
  rewrite (exportImages_reaches_loop E images d d0) by done. cbn [snd].
  destruct (resolveAlbum_inl images d d0 Hres) as [_ Hd0].
  apply (runBatches_invariant E
           (λ s, dom (cache (device s)) ⊆ dom (cache d))); simpl.
  - done.
  - intros i img s Hi Hs. unfold stageImage.
    destruct (Naming.generateUniqueFileName _ _ _) as [fileName used].
    destruct (copyOk E i) eqn:Hc; [|done].
    destruct (Hok i Hi Hc) as [-> ->]. simpl.
    rewrite lookup_insert_eq. simpl.
    etrans; [apply dom_delete_insert|done].
  - intros b s Hs. unfold attachBatch.
    destruct (batchAssets s); [done|]. by destruct (attachOk E b).
  - done.
Qed.

End pipeline_album.

(** ** More on the selection: removing the time tag, toggling *)

Section selection_more.
Import Selection.

Lemma filter_not_time_replace (l : list Tag) i old new :
  l !! i = Some old → isTimeTag old = true → isTimeTag new = true →
  filter (λ t, isTimeTag t ≠ true) (<[i := new]> l)
  = filter (λ t, isTimeTag t ≠ true) l.
Proof.
  intros Hi Hold Hnew.
  rewrite insert_take_drop by (by eapply lookup_lt_Some).
  rewrite <-(take_drop_middle l i old Hi) at 3.
  rewrite !filter_app. f_equal.
  rewrite !filter_cons_False by (intros Hne; done). done.
Qed.

Lemma timeTagCount_not_time (l : list Tag) :
  timeTagCount (filter (λ t, isTimeTag t ≠ true) l) = 0.
Proof.
  apply timeTagCount_zero, Forall_forall.
  intros t [Ht _]%list_elem_of_filter. by destruct (isTimeTag t).
Qed.

Lemma filter_not_time (l : list Tag) :
  filter (λ t, isTimeTag t ≠ true) l = filter (λ t, isTimeTag t = false) l.
Proof.
  induction l as [|t l IH]; [done|].
  destruct (decide (isTimeTag t = true)) as [Ht|Ht].
  - rewrite filter_cons_False by (intros Hn; by apply Hn).
    by rewrite filter_cons_False by congruence.
  - rewrite filter_cons_True by done.
    rewrite filter_cons_True by (by destruct (isTimeTag t)).
    by rewrite IH.
Qed.

Lemma filter_twice {A} (P : A → Prop) `{∀ a, Decision (P a)} (l : list A) :
  filter P (filter P l) = filter P l.
Proof.
  induction l as [|a l IH]; [done|].
  destruct (decide (P a)) as [Ha|Ha].
  - rewrite filter_cons_True by done.
    rewrite filter_cons_True by done. by rewrite IH.
  - by rewrite filter_cons_False by done.
Qed.

(** X7. After the time tag is removed the selection is exactly the
    selected tags that are not time tags, in their order: no time tag is
    left and no other tag is lost.  Adding a time tag and then removing
    it has the same effect on the selected tags as only removing. *)
Theorem removeTimeTag_clears now (st : State) :
  selectedTags (removeTimeTag st)
  = filter (λ t, isTimeTag t = false) (selectedTags st) ∧
  timeTagCount (selectedTags (removeTimeTag st)) = 0 ∧
  filter (λ t, isTimeTag t = false) (selectedTags (removeTimeTag st))
  = filter (λ t, isTimeTag t = false) (selectedTags st) ∧
  selectedTags (removeTimeTag (addTimeTag now st))
  = selectedTags (removeTimeTag st).
Proof.
  split; [apply filter_not_time|].
  split; [apply timeTagCount_not_time|]. split.
  - cbn [removeTimeTag selectedTags]. rewrite filter_not_time.
    apply filter_twice.
  - unfold addTimeTag.
    destruct (decide (trim (timeTag st) = "")); [done|].
    cbn [removeTimeTag selectedTags]. unfold findIndex.
    destruct (findIndexFrom_spec isTimeTag (selectedTags st) 0)
      as [[Heq _]|(i & x & Heq & Hi & Hx & _)]; [lia| |].
    + rewrite Heq. simpl. rewrite filter_app, filter_cons_False, filter_nil.
      * apply app_nil_r.
      * intros Hne. by apply Hne.
    + rewrite Heq, Z.add_0_l.
      assert ((0 <=? Z.of_nat i)%Z = true) as -> by lia.
      rewrite Nat2Z.id. by apply (filter_not_time_replace _ i x).
Qed.

Lemma filter_id_twice id (l : list Tag) :
  filter (λ u, tag_id u ≠ id) (filter (λ u, tag_id u ≠ id) l)
  = filter (λ u, tag_id u ≠ id) l.
Proof.
  induction l as [|u l IH]; [done|].
  destruct (decide (tag_id u = id)) as [Heq|Hne].
  - by rewrite filter_cons_False by (intros Hn; done).
  - rewrite filter_cons_True by done.
    rewrite filter_cons_True by done. by rewrite IH.
Qed.

Lemma filter_absent_id id (l : list Tag) :
  hasId id l = false → filter (λ u, tag_id u ≠ id) l = l.
Proof.
  induction l as [|u l IH]; [done|]. simpl.
  intros [Hu Hl]%orb_false_iff. apply bool_decide_eq_false in Hu.
  rewrite filter_cons_True by done. by rewrite IH.
Qed.

Lemma hasId_filter_other id id' (l : list Tag) :
  id' ≠ id →
  hasId id' (filter (λ u, tag_id u ≠ id) l) = hasId id' l.
Proof.
  intros Hne. induction l as [|u l IH]; [done|].
  destruct (decide (tag_id u = id)) as [Heq|Hu].
  - rewrite filter_cons_False by (intros Hn; done). simpl.
    rewrite bool_decide_eq_false_2 by congruence. done.
  - rewrite filter_cons_True by done. simpl. by rewrite IH.
Qed.

(** X8. Toggling a tag leaves the selected tags with other ids as they
    are, in the same order, and does not change whether any other id is
    selected. *)
Theorem toggleTag_others_untouched groupId tag (sel : list Tag) :
  filter (λ u, tag_id u ≠ tag_id tag) (toggleTag groupId tag sel)
  = filter (λ u, tag_id u ≠ tag_id tag) sel ∧
  ∀ id, id ≠ tag_id tag →
        hasId id (toggleTag groupId tag sel) = hasId id sel.
Proof.
  unfold toggleTag. destruct (hasId (tag_id tag) sel) eqn:Hsel.
  - split; [apply filter_id_twice|].
    intros id Hne. by apply hasId_filter_other.
  - split.
    + rewrite filter_app, filter_cons_False, filter_nil.
      * apply app_nil_r.
      * intros Hne. by apply Hne.
    + intros id Hne. rewrite hasId_app. simpl.
      rewrite bool_decide_eq_false_2 by done. by rewrite !orb_false_r.
Qed.

(** X9. Two toggles of a tag whose id was not selected give back the
    selection exactly.  When the id was selected, two toggles leave the
    other tags in place and put the tag, stamped with the group, last. *)
Theorem toggleTag_twice groupId tag (sel : list Tag) :
  (hasId (tag_id tag) sel = false →
     toggleTag groupId tag (toggleTag groupId tag sel) = sel) ∧
  (hasId (tag_id tag) sel = true →
     toggleTag groupId tag (toggleTag groupId tag sel)
     = filter (λ u, tag_id u ≠ tag_id tag) sel ++ [stamp groupId tag]).
Proof.
  split; intros Hsel.
  - pose proof (toggleTag_flips groupId tag sel) as Hflip.
    rewrite Hsel in Hflip. simpl in Hflip.
    unfold toggleTag at 1. rewrite Hflip.
    unfold toggleTag. rewrite Hsel.
    rewrite filter_app, filter_cons_False, filter_nil.
    + rewrite app_nil_r. by apply filter_absent_id.
    + intros Hne. by apply Hne.
  - pose proof (toggleTag_flips groupId tag sel) as Hflip.
    rewrite Hsel in Hflip. simpl in Hflip.
    unfold toggleTag at 1. rewrite Hflip.
    unfold toggleTag. by rewrite Hsel.
Qed.

Lemma timeTagCount_cons t (l : list Tag) :
  timeTagCount (t :: l) = (if isTimeTag t then 1 else 0) + timeTagCount l.
Proof.
  unfold timeTagCount. destruct (isTimeTag t) eqn:Ht.
  - by rewrite filter_cons_True.
  - by rewrite filter_cons_False by congruence.
Qed.

Lemma timeTagCount_filter_le (P : Tag → Prop) `{∀ t, Decision (P t)}
    (l : list Tag) :
  timeTagCount (filter P l) ≤ timeTagCount l.
Proof.
  induction l as [|t l IH]; [done|].
  rewrite filter_cons, timeTagCount_cons.
  destruct (decide (P t)); [rewrite timeTagCount_cons|]; lia.
Qed.

Lemma toggleTag_exclusive groupId tag (sel : list Tag) :
  isTimeTag tag = false → exclusive sel →
  exclusive (toggleTag groupId tag sel).
Proof.
  intros Htag Hex. unfold exclusive, toggleTag in *.
  destruct (hasId (tag_id tag) sel).
  - pose proof (timeTagCount_filter_le (λ t, tag_id t ≠ tag_id tag) sel).
    lia.
  - rewrite timeTagCount_app, timeTagCount_cons.
    change (isTimeTag (stamp groupId tag)) with (isTimeTag tag).
    rewrite Htag. simpl. unfold timeTagCount at 2. simpl. lia.
Qed.

(** X10. Toggling a tag that is not a time tag keeps the selection at
    no more than one time tag, and never raises the number of time tags. *)
Theorem toggleTag_keeps_exclusive groupId tag (sel : list Tag) :
  isTimeTag tag = false →
  timeTagCount (toggleTag groupId tag sel) ≤ timeTagCount sel ∧
  (exclusive sel → exclusive (toggleTag groupId tag sel)).
Proof.
  intros Htag. split; [|by apply toggleTag_exclusive].
  unfold toggleTag. destruct (hasId (tag_id tag) sel).
  - apply timeTagCount_filter_le.
  - rewrite timeTagCount_app, timeTagCount_cons.
    change (isTimeTag (stamp groupId tag)) with (isTimeTag tag).
    rewrite Htag. simpl. unfold timeTagCount at 2. simpl. lia.
Qed.

Lemma toggleTag_others_untouched_witness :
  hasId "t2" (toggleTag "g1" Scenarios.mom [Scenarios.dad])
  = hasId "t2" [Scenarios.dad].
Proof.
  apply (proj2 (toggleTag_others_untouched "g1" Scenarios.mom
                  [Scenarios.dad])).
  discriminate.
Defined.

Lemma toggleTag_twice_witness :
  toggleTag "g1" Scenarios.mom (toggleTag "g1" Scenarios.mom [Scenarios.dad])
  = [Scenarios.dad] ∧
  toggleTag "g1" Scenarios.mom
    (toggleTag "g1" Scenarios.mom [Scenarios.momSelected; Scenarios.dad])
  = filter (λ u, tag_id u ≠ "t1") [Scenarios.momSelected; Scenarios.dad]
    ++ [stamp "g1" Scenarios.mom].
Proof.
  split.
  - apply (proj1 (toggleTag_twice "g1" Scenarios.mom [Scenarios.dad])).
    reflexivity.
  - apply (proj2 (toggleTag_twice "g1" Scenarios.mom
                    [Scenarios.momSelected; Scenarios.dad])).
    reflexivity.
Defined.

Lemma toggleTag_keeps_exclusive_witness :
  exclusive (toggleTag "g1" Scenarios.mom
               (selectedTags Scenarios.editing)).
Proof.
  destruct (toggleTag_keeps_exclusive "g1" Scenarios.mom
              (selectedTags Scenarios.editing)) as [_ Hex]; [reflexivity|].
  apply Hex. vm_compute. lia.
Defined.

End selection_more.

(** ** Searching the catalog *)

Section search_facts.
Import Search.

Lemma toLowerCaseUnit_idemp c :
  toLowerCaseUnit (toLowerCaseUnit c) = toLowerCaseUnit c.
Proof. destruct c as [[] [] [] [] [] [] [] []]; by vm_compute. Qed.

Lemma toLowerCaseUnit_whitespace c :
  Selection.isWhiteSpace (toLowerCaseUnit c) = Selection.isWhiteSpace c.
Proof. destruct c as [[] [] [] [] [] [] [] []]; by vm_compute. Qed.

Lemma toLowerCase_idemp s : toLowerCase (toLowerCase s) = toLowerCase s.
Proof.
  induction s as [|c s IH]; simpl; [done|].
  by rewrite toLowerCaseUnit_idemp, IH.
Qed.

Lemma toLowerCase_whitespaceOnly s :
  Selection.whitespaceOnly (toLowerCase s) = Selection.whitespaceOnly s.
Proof.
  induction s as [|c s IH]; simpl; [done|].
  by rewrite toLowerCaseUnit_whitespace, IH.
Qed.

Lemma blank_toLowerCase s1 s2 :
  toLowerCase s1 = toLowerCase s2 →
  (Selection.trim s1 = "" ↔ Selection.trim s2 = "").
Proof.
  intros Heq. rewrite !trim_empty_iff.
  by rewrite <-(toLowerCase_whitespaceOnly s1), Heq,
             toLowerCase_whitespaceOnly.
Qed.

(** The list that the non-blank branch of [getFilteredGroups] builds. *)
Lemma getFilteredGroups_search text (groups : list TagGroup) :
  Selection.whitespaceOnly text = false →
  getFilteredGroups text groups
  = filter (λ group, group_tags group ≠ [])
      ((λ group,
          mkTagGroup (group_id group) (group_name group)
            (filter (λ tag, matches text tag = true) (group_tags group)))
         <$> groups).
Proof.
  intros Hw. unfold getFilteredGroups.
  destruct (decide (Selection.trim text = "")) as [Hb|]; [|done].
  apply trim_empty_iff in Hb. congruence.
Qed.

(** X11. A blank search shows the whole catalog.  Otherwise every group
    shown has at least one tag and only tags that match, each group shown
    is a group of the catalog cut down to its matching tags, and the
    groups shown keep the order of the catalog. *)
Theorem getFilteredGroups_sound text (groups : list TagGroup) :
  (Selection.whitespaceOnly text = true →
     getFilteredGroups text groups = groups) ∧
  (Selection.whitespaceOnly text = false →
     Forall (λ g, group_tags g ≠ [] ∧
                  Forall (λ t, matches text t = true) (group_tags g))
       (getFilteredGroups text groups) ∧
     Forall (λ g, ∃ g0, g0 ∈ groups ∧
                        group_id g = group_id g0 ∧
                        group_name g = group_name g0 ∧
                        group_tags g
                        = filter (λ t, matches text t = true) (group_tags g0))
       (getFilteredGroups text groups) ∧
     (group_id <$> getFilteredGroups text groups)
       `sublist_of` (group_id <$> groups)).
Proof.
  split.
  - intros Hw. unfold getFilteredGroups.
    by rewrite decide_True by (by apply trim_empty_iff).
  - intros Hw. rewrite (getFilteredGroups_search text groups Hw).
    split; [|split].
    + apply Forall_forall. intros g [Hne Hin]%list_elem_of_filter.
      apply list_elem_of_fmap in Hin as (g0 & -> & _). simpl in *.
      split; [done|]. apply Forall_forall.
      by intros t [Ht _]%list_elem_of_filter.
    + apply Forall_forall. intros g [_ Hin]%list_elem_of_filter.
      apply list_elem_of_fmap in Hin as (g0 & -> & Hg0). by exists g0.
    + etrans; [apply fmap_sublist, sublist_filter|].
      rewrite <-list_fmap_compose. done.
Qed.

(** X12. Search texts that differ only in the case of their letters show
    the same groups. *)
Theorem getFilteredGroups_case_insensitive text1 text2
    (groups : list TagGroup) :
  toLowerCase text1 = toLowerCase text2 →
  getFilteredGroups text1 groups = getFilteredGroups text2 groups.
Proof.
  intros Heq. pose proof (blank_toLowerCase text1 text2 Heq) as Hblank.
  unfold getFilteredGroups, matches.
  destruct (decide (Selection.trim text1 = "")) as [H1|H1],
           (decide (Selection.trim text2 = "")) as [H2|H2].
  - done.
  - by apply Hblank in H1.
  - by apply Hblank in H2.
  - by rewrite Heq.
Qed.

(** X13. With a search text that is not blank, every tag of the
    catalog that matches (its lower-cased name contains the lower-cased
    text) is shown, in a group with the id and the name of its group; with
    X11, the groups shown are exactly the groups with a matching tag. *)
Theorem getFilteredGroups_complete text (groups : list TagGroup) g t :
  Selection.whitespaceOnly text = false →
  g ∈ groups → t ∈ group_tags g →
  matches text t = true →
  ∃ g', g' ∈ getFilteredGroups text groups ∧
        group_id g' = group_id g ∧ group_name g' = group_name g ∧
        group_tags g'
        = filter (λ tag, matches text tag = true) (group_tags g) ∧
        t ∈ group_tags g'.
Proof.
  intros Hw Hg Ht Hmatch. rewrite (getFilteredGroups_search text groups Hw).
  assert (Hkept : t ∈ filter (λ tag, matches text tag = true) (group_tags g))
    by (by apply list_elem_of_filter).
  eexists (mkTagGroup (group_id g) (group_name g) _).
  split; [|split; [done|split; [done|split; [done|exact Hkept]]]].
  apply list_elem_of_filter. split.
  - simpl. intros Hnil. rewrite Hnil in Hkept. by apply elem_of_nil in Hkept.
  - apply list_elem_of_fmap. by exists g.
Qed.

Lemma getFilteredGroups_sound_witness :
  getFilteredGroups " " Runs.catalog2 = Runs.catalog2 ∧
  (group_id <$> getFilteredGroups "om" Runs.catalog2)
    `sublist_of` (group_id <$> Runs.catalog2).
Proof.
  split.
  - apply (proj1 (getFilteredGroups_sound " " Runs.catalog2)). reflexivity.
  - apply (proj2 (getFilteredGroups_sound "om" Runs.catalog2)). reflexivity.
Defined.

Lemma getFilteredGroups_case_insensitive_witness :
  getFilteredGroups "MOM" Runs.catalog2 = getFilteredGroups "mom" Runs.catalog2.
Proof.
  apply (getFilteredGroups_case_insensitive "MOM" "mom" Runs.catalog2).
  reflexivity.
Defined.

Lemma getFilteredGroups_complete_witness :
  ∃ g', g' ∈ getFilteredGroups "OM" Runs.catalog2 ∧
        group_id g' = "g2" ∧ group_name g' = "Places" ∧
        group_tags g'
        = filter (λ tag, matches "OM" tag = true)
            [mkTag "t3" "Home" None None] ∧
        mkTag "t3" "Home" None None ∈ group_tags g'.
Proof.
  apply (getFilteredGroups_complete "OM" Runs.catalog2
           (mkTagGroup "g2" "Places" [mkTag "t3" "Home" None None])
           (mkTag "t3" "Home" None None)).
  - reflexivity.
  - apply list_elem_of_In. simpl. tauto.
  - apply list_elem_of_In. simpl. tauto.
  - reflexivity.
Defined.

End search_facts.

(** ** The tag management screen *)

Section management_facts.
Import Management.

Lemma act_inSync (st : State) (a : Action) : inSync st → inSync (act st a).
Proof.
  unfold inSync. intros Hs. destruct a as [| | |now w|now w|c w g|c w g t|r];
    simpl; try done.
  - unfold addGroup. destruct (decide _); [done|]. by destruct w.
  - unfold addTag. destruct (decide _); [done|].
    destruct (targetGroup st); [|done]. by destruct w.
  - unfold deleteGroup. destruct c; [|done].
    destruct (decide _); by destruct w.
  - unfold deleteTag. destruct c; [|done]. by destruct w.
  - unfold loadTagGroups. destruct r; [|done]. by rewrite Hs.
Qed.



Lemma plain_filter (P : Tag → Prop) `{∀ t, Decision (P t)} (l : list Tag) :
  Forall plainTag l → Forall plainTag (filter P l).
Proof.
  rewrite !Forall_forall. intros Hl t [_ Ht]%list_elem_of_filter. auto.
Qed.

Lemma act_plain (st : State) (a : Action) :
  inSync st → plainCatalog (tagGroups st) → plainCatalog (tagGroups (act st a)).
Proof.
  unfold inSync, plainCatalog. intros Hs Hp.
  destruct a as [| | |now w|now w|c w g|c w g t|r]; simpl; try done.
  - unfold addGroup. destruct (decide _); [done|]. destruct w; [|done].
    simpl. apply Forall_app. split; [done|]. by repeat constructor.
  - unfold addTag. destruct (decide _); [done|].
    destruct (targetGroup st) as [g|]; [|done]. destruct w; [|done]. simpl.
    apply Forall_fmap. eapply Forall_impl; [exact Hp|].
    intros grp Hgrp. simpl. destruct (decide _); [|done]. simpl.
    apply Forall_app. split; [done|]. by repeat constructor.
  - unfold deleteGroup. destruct c; [|done].
    assert (Forall (λ g0, Forall plainTag (group_tags g0))
              (filter (λ group, group_id group ≠ g) (tagGroups st))) as Hf.
    { rewrite !Forall_forall in Hp |- *.
      intros g0 [_ Hg0]%list_elem_of_filter. auto. }
    destruct (decide _); by destruct w.
  - unfold deleteTag. destruct c; [|done]. destruct w; [|done]. simpl.
    apply Forall_fmap. eapply Forall_impl; [exact Hp|].
    intros grp Hgrp. simpl. destruct (decide _); [|done]. simpl.
    by apply plain_filter.
  - unfold loadTagGroups. destruct r; [|done]. by rewrite Hs.
Qed.

(** X15. Starting from a stored catalog whose tags carry neither a
    group stamp nor the time flag, every catalog reachable on the
    management screen is of that kind; so selecting any of its tags keeps
    a selection at no more than one time tag. *)
Theorem catalog_tags_stay_plain (actions : list Action) (st : State) :
  inSync st → plainCatalog (tagGroups st) →
  plainCatalog (tagGroups (run actions st)) ∧
  ∀ g t (sel : list Tag),
    g ∈ tagGroups (run actions st) → t ∈ group_tags g →
    Selection.exclusive sel →
    Selection.exclusive (Selection.toggleTag (group_id g) t sel).
Proof.
  intros Hs Hp.
  assert (plainCatalog (tagGroups (run actions st))) as Hplain.
  { revert st Hs Hp. induction actions as [|a actions IH]; intros st Hs Hp;
      [done|].
    apply IH; [by apply act_inSync|by apply act_plain]. }
  split; [done|]. intros g t sel Hg Ht Hex.
  apply toggleTag_exclusive; [|done].
  unfold plainCatalog in Hplain. rewrite Forall_forall in Hplain.
  specialize (Hplain g Hg). rewrite Forall_forall in Hplain.
  destruct (Hplain t Ht) as [_ Hflag]. unfold isTimeTag. by rewrite Hflag.
Qed.

Lemma catalog_tags_stay_plain_witness :
  plainCatalog
    (tagGroups (run [TypeGroupName "Family"; AddGroup 1 true; PressGroup "1";
                     TypeTagName "Mom"; AddTag 2 true] initial)).
Proof.
  apply catalog_tags_stay_plain; [reflexivity|constructor].
Defined.

Lemma group_eta (g : TagGroup) :
  mkTagGroup (group_id g) (group_name g) (group_tags g) = g.
Proof. by destruct g. Qed.

Lemma filter_all {A} (P : A → Prop) `{∀ x, Decision (P x)} (l : list A) :
  Forall P l → filter P l = l.
Proof.
  induction 1 as [|x l Hx _ IH]; [done|].
  by rewrite filter_cons_True, IH.
Qed.

(** X16. Adding a group and then deleting the group with the id it got
    gives back the catalog, shown and stored, when both writes resolve and
    no earlier group has that id. *)
Theorem addGroup_deleteGroup now (st : State) :
  Selection.whitespaceOnly (newGroupName st) = false →
  Forall (λ g, group_id g ≠ pretty now) (tagGroups st) →
  tagGroups (deleteGroup true true (pretty now) (addGroup now true st))
  = tagGroups st ∧
  savedGroups (deleteGroup true true (pretty now) (addGroup now true st))
  = Some (tagGroups st).
Proof.
  intros Hw Hfresh. unfold addGroup.
  destruct (decide (Selection.trim (newGroupName st) = "")) as [Hb|_].
  { apply trim_empty_iff in Hb. congruence. }
  unfold deleteGroup. simpl.
  rewrite filter_app, filter_cons_False, filter_nil, app_nil_r
    by (intros Hne; by apply Hne).
  rewrite (filter_all _ _ Hfresh).
  destruct (decide _); done.
Qed.

(** X17. Adding a tag and then deleting the tag with the id it got from
    the same group gives back the catalog, shown and stored, when both
    writes resolve and no tag of that group has that id. *)
Theorem addTag_deleteTag now (st : State) g :
  Selection.whitespaceOnly (newTagName st) = false →
  targetGroup st = Some g →
  Forall (λ grp, group_id grp = g →
                 Forall (λ t, tag_id t ≠ pretty now) (group_tags grp))
    (tagGroups st) →
  tagGroups (deleteTag true true g (pretty now) (addTag now true st))
  = tagGroups st ∧
  savedGroups (deleteTag true true g (pretty now) (addTag now true st))
  = Some (tagGroups st).
Proof.
  intros Hw Hg Hfresh. unfold addTag.
  destruct (decide (Selection.trim (newTagName st) = "")) as [Hb|_].
  { apply trim_empty_iff in Hb. congruence. }
  rewrite Hg. unfold deleteTag. simpl.
  assert (((λ group,
              if decide (group_id group = g)
              then mkTagGroup (group_id group) (group_name group)
                     (filter (λ tag, tag_id tag ≠ pretty now)
                        (group_tags group))
              else group) <$>
           ((λ group,
               if decide (group_id group = g)
               then mkTagGroup (group_id group) (group_name group)
                      (group_tags group
                       ++ [mkTag (pretty now) (newTagName st) None None])
               else group) <$> tagGroups st)) = tagGroups st) as ->; [|done].
  rewrite <-list_fmap_compose.
  rewrite <-(list_fmap_id (tagGroups st)) at 2.
  apply Forall_fmap_ext_1. eapply Forall_impl; [exact Hfresh|].
  intros grp Hgrp. simpl.
  destruct (decide (group_id grp = g)) as [Heq|Hne]; simpl.
  - rewrite decide_True by done. simpl.
    rewrite filter_app, filter_cons_False, filter_nil, app_nil_r
      by (intros Hn; by apply Hn).
    rewrite (filter_all _ _ (Hgrp Heq)). apply group_eta.
  - by rewrite decide_False.
Qed.

(** X18. Adding or deleting a tag never adds, removes, renames or
    reorders a group; adding only appends to the tags of a group and
    deleting only takes tags away. *)
Theorem tag_operations_keep_groups now c w g t (st : State) :
  (λ grp, (group_id grp, group_name grp)) <$> tagGroups (addTag now w st)
  = (λ grp, (group_id grp, group_name grp)) <$> tagGroups st ∧
  Forall2 (λ old new, group_tags old `prefix_of` group_tags new)
    (tagGroups st) (tagGroups (addTag now w st)) ∧
  (λ grp, (group_id grp, group_name grp)) <$> tagGroups (deleteTag c w g t st)
  = (λ grp, (group_id grp, group_name grp)) <$> tagGroups st ∧
  Forall2 (λ old new, group_tags new `sublist_of` group_tags old)
    (tagGroups st) (tagGroups (deleteTag c w g t st)).
Proof.
  assert (Hsame : ∀ l : list TagGroup,
            Forall2 (λ old new, group_tags old `prefix_of` group_tags new) l l)
    by (intros l; by apply Forall_Forall2_diag, Forall_forall).
  assert (Hsame' : ∀ l : list TagGroup,
            Forall2 (λ old new, group_tags new `sublist_of` group_tags old) l l)
    by (intros l; by apply Forall_Forall2_diag, Forall_forall).
  split; [|split; [|split]].
  - unfold addTag. destruct (decide _); [done|].
    destruct (targetGroup st); [|done]. destruct w; [|done]. simpl.
    rewrite <-list_fmap_compose. apply list_fmap_ext.
    intros i grp _. unfold compose. by case_decide.
  - unfold addTag. destruct (decide _); [done|].
    destruct (targetGroup st); [|done]. destruct w; [|done]. simpl.
    apply Forall2_fmap_r, Forall_Forall2_diag, Forall_forall.
    intros grp _. unfold compose. case_decide; [|done]. by apply prefix_app_r.
  - unfold deleteTag. destruct c; [|done]. destruct w; [|done]. simpl.
    rewrite <-list_fmap_compose. apply list_fmap_ext.
    intros i grp _. unfold compose. by case_decide.
  - unfold deleteTag. destruct c; [|done]. destruct w; [|done]. simpl.
    apply Forall2_fmap_r, Forall_Forall2_diag, Forall_forall.
    intros grp _. unfold compose. case_decide; [|done]. apply sublist_filter.
Qed.

Lemma addGroup_deleteGroup_witness :
  tagGroups (deleteGroup true true "1"
               (addGroup 1 true (mkState [] "Family" "" None (Some []))))
  = [].
Proof.
  apply (addGroup_deleteGroup 1 (mkState [] "Family" "" None (Some []))).
  - reflexivity.
  - constructor.
Defined.

Lemma addTag_deleteTag_witness :
  tagGroups
    (deleteTag true true "1" "2"
       (addTag 2 true
          (mkState [mkTagGroup "1" "Family" []] "" "Mom" (Some "1")
             (Some [mkTagGroup "1" "Family" []]))))
  = [mkTagGroup "1" "Family" []].
Proof.
  apply (addTag_deleteTag 2
           (mkState [mkTagGroup "1" "Family" []] "" "Mom" (Some "1")
              (Some [mkTagGroup "1" "Family" []])) "1").
  - reflexivity.
  - reflexivity.
  - repeat constructor.
Defined.

End management_facts.

(** ** Deleting a group from the modal *)

Section cascade_facts.
Import Catalog.

(** X19. Deleting a group from the modal unselects the tags stamped with
    that group and no others, keeps the selection at no more than one time
    tag, and leaves the images alone.  It does so whether or not the write
    resolves: after a rejected write the group is still in the catalog
    while its tags are no longer selected. *)
Theorem deleteGroup_cascade writeOk groupId (a : App) :
  selectedTags (deleteGroup true writeOk groupId a)
  = filter (λ t, tag_groupId t ≠ Some groupId) (selectedTags a) ∧
  selectsGroup groupId (selectedTags (deleteGroup true writeOk groupId a))
  = false ∧
  (Selection.exclusive (selectedTags a) →
   Selection.exclusive (selectedTags (deleteGroup true writeOk groupId a))) ∧
  Forall (λ g, group_id g ≠ groupId)
    (tagGroups (deleteGroup true true groupId a)) ∧
  tagGroups (deleteGroup true false groupId a) = tagGroups a ∧
  images (deleteGroup true writeOk groupId a) = images a.
Proof.
  assert (Hsel : selectedTags (deleteGroup true writeOk groupId a)
                 = filter (λ t, tag_groupId t ≠ Some groupId) (selectedTags a))
    by (unfold deleteGroup; by destruct writeOk).
  split; [done|]. split; [apply deleteGroup_drops_group|]. split; [|split].
  - rewrite Hsel. unfold Selection.exclusive. intros Hex.
    pose proof (timeTagCount_filter_le
                  (λ t, tag_groupId t ≠ Some groupId) (selectedTags a)). lia.
  - simpl. apply Forall_forall.
    by intros g [Hg _]%list_elem_of_filter.
  - split; [done|]. unfold deleteGroup. by destruct writeOk.
Qed.

Lemma deleteGroup_cascade_witness :
  Selection.exclusive
    (selectedTags (deleteGroup true false "g1" Scenarios.bothSelected)).
Proof.
  apply (deleteGroup_cascade false "g1" Scenarios.bothSelected).
  vm_compute. lia.
Defined.

End cascade_facts.

(** ** The image collection of the home screen *)

Section home_facts.
Import Home.

Lemma act_withinCapacity (st : State) (a : Action) :
  withinCapacity st → withinCapacity (act st a).
Proof.
  unfold withinCapacity. intros [Hi Hs].
  destruct a as [now cam w|w imageId tags|c w imageId|c w|r]; simpl.
  - unfold takePhoto.
    destruct (MAX_IMAGES <=? length (images st)) eqn:Hcap; [done|].
    apply Nat.leb_gt in Hcap.
    destruct cam as [| |uri]; [done..|].
    destruct w; simpl; rewrite length_app; simpl; split; (done || lia).
  - unfold updateImageTags.
    destruct w; simpl; rewrite length_fmap; by split.
  - unfold deleteImage. destruct c; [|done].
    pose proof (length_filter (λ img, image_id img ≠ imageId) (images st)).
    destruct w; simpl; split; (done || lia).
  - unfold clearAllImages. destruct (images st) eqn:Himg; [by rewrite Himg|].
    destruct c; [|by rewrite Himg].
    unfold MAX_IMAGES. destruct w; simpl; split; (done || lia).
  - unfold loadImages. destruct r; [|done].
    destruct (savedImages st) as [doc|] eqn:Hdoc; simpl in *;
      rewrite ?Hdoc; by split.
Qed.

(** X20. The cap of 80 images holds for the collection and for the
    stored document after any sequence of actions on the home screen,
    whatever the camera, the writes and the reads answer. *)
Theorem capacity_kept (actions : list Action) (st : State) :
  withinCapacity st → withinCapacity (run actions st).
Proof.
  revert st. induction actions as [|a actions IH]; intros st Hs; [done|].
  apply IH. by apply act_withinCapacity.
Qed.

Lemma capacity_kept_witness :
  withinCapacity
    (run [TakePhoto 1 (Captured "file:///a.jpg") true;
          TakePhoto 2 Canceled true;
          UpdateTags false "1" [Scenarios.momSelected];
          Load true]
       (mkState [] None)).
Proof.
  apply capacity_kept. unfold withinCapacity, MAX_IMAGES. simpl. split; [lia|done].
Defined.

(** X21. [takePhoto] only appends: the images that were there stay
    first and unchanged, at most one image is added, and an image added
    has no tags.  At the cap nothing happens, whatever the camera would
    answer. *)
Theorem takePhoto_appends now camera writeOk (st : State) :
  images st `prefix_of` images (takePhoto now camera writeOk st) ∧
  length (images (takePhoto now camera writeOk st)) ≤ S (length (images st)) ∧
  Forall (λ img, image_tags img = [])
    (drop (length (images st)) (images (takePhoto now camera writeOk st))) ∧
  (MAX_IMAGES ≤ length (images st) → takePhoto now camera writeOk st = st).
Proof.
  unfold takePhoto.
  destruct (MAX_IMAGES <=? length (images st)) eqn:Hcap.
  - rewrite drop_all. repeat split; (done || lia || constructor).
  - apply Nat.leb_gt in Hcap.
    destruct camera as [| |uri].
    + rewrite drop_all. repeat split; (done || lia || constructor).
    + rewrite drop_all. repeat split; (done || lia || constructor).
    + assert (images (setItem writeOk
                        (images st ++ [mkImageItem (pretty now) uri []])
                        (mkState
                           (images st ++ [mkImageItem (pretty now) uri []])
                           (savedImages st)))
              = images st ++ [mkImageItem (pretty now) uri []]) as ->
        by (by destruct writeOk).
      rewrite drop_app_length, length_app. simpl.
      repeat split; [by apply prefix_app_r|lia|by repeat constructor|lia].
Qed.

Lemma takePhoto_appends_witness :
  takePhoto 1 (Captured "file:///a.jpg") true
    (mkState (replicate 80 Scenarios.photo) None)
  = mkState (replicate 80 Scenarios.photo) None.
Proof.
  apply (takePhoto_appends 1 (Captured "file:///a.jpg") true
           (mkState (replicate 80 Scenarios.photo) None)).
  vm_compute. lia.
Defined.

Lemma updateImageTags_images writeOk imageId tags (st : State) :
  images (updateImageTags writeOk imageId tags st)
  = (λ img,
       if decide (image_id img = imageId)
       then mkImageItem (image_id img) (image_uri img) tags
       else img) <$> images st.
Proof. unfold updateImageTags. by destruct writeOk. Qed.

Lemma image_eta (img : ImageItem) :
  mkImageItem (image_id img) (image_uri img) (image_tags img) = img.
Proof. by destruct img. Qed.

(** X22. [updateImageTags] never adds, removes or reorders images and
    never changes an id or a uri; the images with the given id get the
    given tags and the others keep theirs; with an id that no image has,
    the collection stays as it is. *)
Theorem updateImageTags_only_tags writeOk imageId tags (st : State) :
  image_id <$> images (updateImageTags writeOk imageId tags st)
  = image_id <$> images st ∧
  image_uri <$> images (updateImageTags writeOk imageId tags st)
  = image_uri <$> images st ∧
  Forall2 (λ old new,
             image_tags new
             = if decide (image_id old = imageId) then tags
               else image_tags old)
    (images st) (images (updateImageTags writeOk imageId tags st)) ∧
  (Forall (λ img, image_id img ≠ imageId) (images st) →
   images (updateImageTags writeOk imageId tags st) = images st).
Proof.
  rewrite updateImageTags_images. split; [|split; [|split]].
  - rewrite <-list_fmap_compose. apply list_fmap_ext.
    intros i img _. unfold compose. by case_decide.
  - rewrite <-list_fmap_compose. apply list_fmap_ext.
    intros i img _. unfold compose. by case_decide.
  - apply Forall2_fmap_r, Forall_Forall2_diag, Forall_forall.
    intros img _. unfold compose. by case_decide.
  - intros Hnone. rewrite <-(list_fmap_id (images st)) at 2.
    apply Forall_fmap_ext_1. eapply Forall_impl; [exact Hnone|].
    intros img Hne. simpl. by rewrite decide_False.
Qed.

Lemma updateImageTags_only_tags_witness :
  images (updateImageTags true "9" [Scenarios.dad]
            (mkState [Scenarios.photo] None))
  = [Scenarios.photo].
Proof.
  apply (updateImageTags_only_tags true "9" [Scenarios.dad]
           (mkState [Scenarios.photo] None)).
  repeat constructor. discriminate.
Defined.

(** X23. Saving a selection with at most one time tag keeps every image
    of the collection at no more than one time tag, whatever the collation
    does and whether or not the write resolves. *)
Theorem saveTags_keeps_exclusive localeCompare writeOk selectedImage
    (sel : Selection.State) (st : State) :
  allExclusive (images st) →
  Selection.exclusive (Selection.selectedTags sel) →
  allExclusive (images (saveTags localeCompare writeOk selectedImage sel st)).
Proof.
  intros Hall Hex. unfold saveTags, allExclusive.
  rewrite updateImageTags_images. apply Forall_fmap.
  eapply Forall_impl; [exact Hall|]. intros img Himg. simpl.
  case_decide; [|done]. simpl.
  unfold Selection.exclusive, Selection.handleSave.
  rewrite (timeTagCount_Permutation _ _
             (sortWith_Permutation _ (Selection.selectedTags sel))).
  exact Hex.
Qed.

Lemma saveTags_keeps_exclusive_witness :
  allExclusive
    (images (saveTags Selection.codeUnitCompare true (Some Scenarios.photo)
               Scenarios.unsaved (mkState [Scenarios.photo] None))).
Proof.
  apply saveTags_keeps_exclusive.
  - constructor; [vm_compute; lia|constructor].
  - vm_compute. lia.
Defined.

Lemma act_inSync_home (st : State) (a : Action) :
  writeOf a ≠ Some false → inSync st → inSync (act st a).
Proof.
  unfold inSync. intros Hw Hs.
  destruct a as [now cam w|w imageId tags|c w imageId|c w|r]; simpl in *.
  - destruct w; [|done]. unfold takePhoto.
    destruct (MAX_IMAGES <=? length (images st)); [done|].
    by destruct cam.
  - by destruct w.
  - destruct w; [|done]. unfold deleteImage. by destruct c.
  - destruct w; [|done]. unfold clearAllImages.
    destruct (images st) eqn:Himg; [by rewrite Himg|].
    destruct c; [done|by rewrite Himg].
  - unfold loadImages. destruct r; [|done]. by rewrite Hs.
Qed.

(** X24. As long as no write is rejected, the collection shown is the
    collection stored, so loading again changes nothing. *)
Theorem writes_resolve_in_sync (actions : list Action) (st : State) :
  inSync st → Forall (λ a, writeOf a ≠ Some false) actions →
  inSync (run actions st) ∧ loadImages true (run actions st) = run actions st.
Proof.
  intros Hs Hw.
  assert (inSync (run actions st)) as Hsync.
  { revert st Hs. induction Hw as [|a actions Ha _ IH]; intros st Hs; [done|].
    apply IH. by apply act_inSync_home. }
  split; [done|]. unfold loadImages. unfold inSync in Hsync.
  destruct (run actions st) as [imgs saved]. simpl in *. by subst.
Qed.

Lemma writes_resolve_in_sync_witness :
  inSync (run [TakePhoto 1 (Captured "file:///a.jpg") true;
               UpdateTags true "1" [Scenarios.momSelected];
               DeleteImage false true "1"]
            (mkState [] (Some []))).
Proof.
  apply writes_resolve_in_sync; [reflexivity|].
  repeat constructor; discriminate.
Defined.

(** X25. A change whose write is rejected is shown but not stored: the
    stored document stays as it was, and the next load brings back the
    collection of that document. *)
Theorem rejected_write_lost_on_load (a : Action) (st : State) doc :
  writeOf a = Some false → savedImages st = Some doc →
  savedImages (act st a) = Some doc ∧
  loadImages true (act st a) = mkState doc (Some doc).
Proof.
  intros Hw Hdoc.
  assert (savedImages (act st a) = Some doc) as Hkept.
  { destruct a as [now cam w|w imageId tags|c w imageId|c w|r];
      simpl in Hw; try discriminate; injection Hw as ->; simpl.
    - unfold takePhoto. destruct (MAX_IMAGES <=? length (images st)); [done|].
      by destruct cam.
    - done.
    - unfold deleteImage. by destruct c.
    - unfold clearAllImages. destruct (images st); [done|]. by destruct c. }
  split; [done|]. unfold loadImages. by rewrite Hkept.
Qed.

Lemma rejected_write_lost_on_load_witness :
  loadImages true
    (act (mkState [Scenarios.photo] (Some [Scenarios.photo]))
       (UpdateTags false "1" []))
  = mkState [Scenarios.photo] (Some [Scenarios.photo]).
Proof.
  apply (rejected_write_lost_on_load (UpdateTags false "1" [])
           (mkState [Scenarios.photo] (Some [Scenarios.photo]))
           [Scenarios.photo]); reflexivity.
Defined.

End home_facts.

(** ** Further runs of the pipeline *)

Section pipeline_more_runs.
Import Pipeline.

Lemma export_complete_iff_witness :
  (exportImages Scenarios.allResolve [Scenarios.photo; Scenarios.photo2]
     Scenarios.deviceWithAlbum).1 = Exported 2 2.
Proof.
  apply (export_complete_iff Scenarios.allResolve
           [Scenarios.photo; Scenarios.photo2]
           Scenarios.deviceWithAlbum Scenarios.deviceWithAlbum);
    [discriminate|reflexivity..|].
  intros i _. reflexivity.
Defined.

Lemma export_album_members_witness :
  album (exportImages Runs.secondAttachRejects Runs.twelve
           Scenarios.deviceWithAlbum).2
  = Some (Runs.attached Runs.secondAttachRejects Runs.twelve 2) ∧
  length (Runs.attached Runs.secondAttachRejects Runs.twelve 2) = 10.
Proof.
  destruct (export_album_members Runs.secondAttachRejects Runs.twelve
              Scenarios.deviceWithAlbum Scenarios.deviceWithAlbum)
    as (m & Hm & Halbum & _); [discriminate|reflexivity..|].
  simpl in Hm. injection Hm as <-. split; [|reflexivity].
  rewrite Halbum. reflexivity.
Defined.

Lemma export_file_names_distinct_witness :
  NoDup
    (asset_file <$>
     library (exportImages Scenarios.allResolve
                [Scenarios.photo; Scenarios.photo2; Scenarios.photo3]
                Scenarios.deviceWithAlbum).2).
Proof.
  destruct (export_file_names_distinct Scenarios.allResolve
              [Scenarios.photo; Scenarios.photo2; Scenarios.photo3]
              Scenarios.deviceWithAlbum Scenarios.deviceWithAlbum)
    as (seed & new & Hlib & Hseed & _ & _ & Hnodup);
    [discriminate|reflexivity..| |].
  - repeat (constructor; [discriminate|]). constructor.
  - rewrite Hlib, Hseed by discriminate. exact Hnodup.
Defined.

(** The seed asset is outside X5: on a device without the album, an
    image tagged "album_init" is exported from a file with the name of
    the seed file. *)
Example seed_file_name_may_repeat :
  asset_file <$>
    library (exportImages Scenarios.allResolve [Runs.seedNamed]
               Scenarios.freshDevice).2
  = ["cache/album_init.jpg"; "cache/album_init.jpg"].
Proof. by vm_compute. Qed.

Lemma export_leaves_no_file_witness :
  dom (cache (exportImages Scenarios.allResolve
                [Scenarios.photo; Scenarios.photo2]
                Scenarios.freshDevice).2)
  ⊆ dom (cache Scenarios.freshDevice).
Proof.
  apply (export_leaves_no_file Scenarios.allResolve
           [Scenarios.photo; Scenarios.photo2] Scenarios.freshDevice
           (mkDevice
              (delete "cache/album_init.jpg"
                 (<["cache/album_init.jpg" := "file:///photo1.jpg"]> ∅))
              [mkAsset "cache/album_init.jpg" "file:///photo1.jpg"]
              (Some [mkAsset "cache/album_init.jpg" "file:///photo1.jpg"])));
    [discriminate|reflexivity..|].
  intros i _ _. split; reflexivity.
Defined.

(** Two untagged images named at the same clock reading share a file
    name: the tags are what makes X5 hold. *)
Example untagged_file_names_may_repeat :
  Runs.names (mkEnv "cache/" (Some true) true (λ _, 7%N)
                (λ _, true) (λ _, true) (λ _, true) (λ _, true)
                true true true true)
    0 [Runs.untagged1; Runs.untagged1] ∅
  = ["image_7"; "image_7"].
Proof. by vm_compute. Qed.

End pipeline_more_runs.
